(** * Request pipeline of the SP-API client: rate limiter, token cache,
      error taxonomy and retry orchestration.

    Shallow embedding of
      - src/utils/errors.ts          (module [Errors]),
      - src/utils/rate-limiter.ts    (module [RateLimiter]),
      - src/auth/token-manager.ts    (module [TokenManager]),
      - src/utils/sp-api-client.ts   (module [Client]).

    Conventions.  JavaScript numbers that hold counts, HTTP statuses and
    millisecond timestamps are integers ([Z]); token counts, window lengths and
    delays are exact rationals ([Q]), i.e. IEEE rounding is not modelled.
    [Date.now()] is an explicit argument.  Promises are modelled by what the
    awaiting caller can observe: a result, a thrown error, or a completion
    signal recorded in a log. *)

From Stdlib Require Import ZArith QArith Qround Qminmax Qpower Lqa Lia.
From Stdlib Require Import Ascii String DecimalString Sorted.
From stdpp Require Import gmap strings list fin_maps.

Open Scope Z_scope.

(** ** JavaScript helpers *)

(** Truthiness of a string: the empty string is falsy. *)
Definition truthy_string (s : string) : bool :=
  match s with
  | EmptyString => false
  | String _ _ => true
  end.

(** [a || b] on strings. *)
Definition or_string (a b : string) : string :=
  if truthy_string a then a else b.

(** Template rendering of an integer, as in [`${n}`]. *)
Definition string_of_Z (z : Z) : string :=
  NilZero.string_of_int (Z.to_int z).

(** The result of [parseInt]: an integer or [NaN]. *)
Inductive number : Type :=
| NaN
| Num (z : Z).

(** Truthiness of a number: [0] and [NaN] are falsy. *)
Definition truthy_number (n : number) : bool :=
  match n with
  | NaN => false
  | Num z => negb (z =? 0)
  end.

Definition isWhiteSpace (c : ascii) : bool :=
  let n := Z.of_N (N_of_ascii c) in
  (n =? 32) || ((9 <=? n) && (n <=? 13)).

Definition digitValue (c : ascii) : option Z :=
  let n := Z.of_N (N_of_ascii c) in
  if (48 <=? n) && (n <=? 57) then Some (n - 48) else None.

Fixpoint trimStart (s : string) : string :=
  match s with
  | String c rest => if isWhiteSpace c then trimStart rest else s
  | EmptyString => s
  end.

(** Longest prefix of decimal digits, accumulated left to right;
    [None] when there is no digit at all. *)
Fixpoint parseDigits (acc : option Z) (s : string) : option Z :=
  match s with
  | String c rest =>
      match digitValue c with
      | Some d => parseDigits (Some (10 * default 0 acc + d)) rest
      | None => acc
      end
  | EmptyString => acc
  end.

(** [parseInt(s, 10)]: leading white space is skipped, one sign is accepted,
    the digits that follow are read, any trailing text is ignored. *)
Definition parseInt10 (s : string) : number :=
  let t := trimStart s in
  let '(sign, body) :=
    match t with
    | String "-"%char rest => (-1, rest)
    | String "+"%char rest => (1, rest)
    | _ => (1, t)
    end in
  match parseDigits None body with
  | Some m => Num (sign * m)
  | None => NaN
  end.

(** ** src/utils/errors.ts *)
Module Errors.

(** The classes of the hierarchy; [JsError] is the built-in [Error]. *)
Inductive ErrorClass : Type :=
| JsError
| SPAPIError
| SPAPIRequestError
| SPAPIServerError
| RateLimitError
| SPAPIAuthError
| SPAPIValidationError.

#[export] Instance ErrorClass_eq_dec : EqDecision ErrorClass.
Proof. solve_decision. Defined.

(** [class C extends D]. *)
Definition extends (c : ErrorClass) : option ErrorClass :=
  match c with
  | JsError => None
  | SPAPIError => Some JsError
  | SPAPIRequestError => Some SPAPIError
  | SPAPIServerError => Some SPAPIError
  | RateLimitError => Some SPAPIError
  | SPAPIAuthError => Some SPAPIRequestError
  | SPAPIValidationError => Some SPAPIRequestError
  end.

(** One entry of the [errors] array of an error body
    (interface [SPAPIError] of types/sp-api.d.ts). *)
Record ErrorEntry : Type := mkEntry {
  entry_code : option string;
  entry_message : string;
  entry_details : option string
}.

(** The values that reach the [details] field, typed [unknown]. *)
Inductive Details : Type :=
| DetailsErrors (errors : list ErrorEntry)
| DetailsText (text : string).

(** An error object.  [name] is the class the object was constructed with
    (each constructor ends by setting the prototype to its own class). *)
Record error : Type := mkError {
  name : ErrorClass;
  message : string;
  code : option string;
  statusCode : option Z;
  details : option Details;
  retryAfter : option number
}.

(** [e instanceof c]: walk the prototype chain of the class of [e]. *)
Fixpoint subclass_fuel (fuel : nat) (c d : ErrorClass) : bool :=
  if decide (c = d) then true
  else match fuel, extends c with
       | S f, Some p => subclass_fuel f p d
       | _, _ => false
       end.

Definition instanceof (e : error) (c : ErrorClass) : bool :=
  subclass_fuel 3 (name e) c.

(** [new Error(message)] *)
Definition newError (msg : string) : error :=
  mkError JsError msg None None None None.

(** [new SPAPIError(message, code?, statusCode?, details?)] *)
Definition newSPAPIError (msg : string) (c : option string)
  (st : option Z) (d : option Details) : error :=
  mkError SPAPIError msg c st d None.

(** [new SPAPIRequestError(message, statusCode, code?, details?)] *)
Definition newSPAPIRequestError (msg : string) (st : Z)
  (c : option string) (d : option Details) : error :=
  mkError SPAPIRequestError msg c (Some st) d None.

(** [new SPAPIServerError(message, statusCode, code?, details?)] *)
Definition newSPAPIServerError (msg : string) (st : Z)
  (c : option string) (d : option Details) : error :=
  mkError SPAPIServerError msg c (Some st) d None.

(** [new RateLimitError(message, retryAfter?, details?)]:
    [super(message, 'RATE_LIMIT_EXCEEDED', 429, details)]. *)
Definition newRateLimitError (msg : string) (ra : option number)
  (d : option Details) : error :=
  mkError RateLimitError msg (Some "RATE_LIMIT_EXCEEDED"%string) (Some 429) d ra.

(** [new SPAPIAuthError(message, details?)]:
    [super(message, 401, 'UNAUTHORIZED', details)]. *)
Definition newSPAPIAuthError (msg : string) (d : option Details) : error :=
  mkError SPAPIAuthError msg (Some "UNAUTHORIZED"%string) (Some 401) d None.

(** [new SPAPIValidationError(message, details?)]:
    [super(message, 400, 'VALIDATION_ERROR', details)]. *)
Definition newSPAPIValidationError (msg : string) (d : option Details) : error :=
  mkError SPAPIValidationError msg (Some "VALIDATION_ERROR"%string) (Some 400) d None.

End Errors.

(** ** src/utils/rate-limiter.ts *)
Module RateLimiter.

Record RateLimitConfig : Type := mkConfig {
  maxRequests : Q;
  windowMs : Q;
  queueRequests : option bool
}.

Record TokenBucket : Type := mkBucket {
  tokens : Q;
  lastRefill : Z
}.

(** An element of [this.queue].  The [resolve] callback of the caller's
    promise is represented by a ticket: the number of requests pushed before
    this one, which is unique to the request as the closure is in the source. *)
Record QueuedRequest : Type := mkQueued {
  key : string;
  resolve : nat;
  enqueueTime : Z
}.

#[export] Instance QueuedRequest_eq_dec : EqDecision QueuedRequest.
Proof. solve_decision. Defined.

(** The fields of a [RateLimiter] instance, followed by three pieces of
    bookkeeping that the object does not store but the event loop and the
    callers observe:
    - [timers]: how many drain loops are suspended in
      [await new Promise(r => setTimeout(r, waitTime))];
    - [enqueued]: every request ever pushed on the queue, oldest first;
    - [resolved]: every request whose [resolve()] has been called, in call
      order. *)
Record state : Type := mkState {
  configs : gmap string RateLimitConfig;
  buckets : gmap string TokenBucket;
  queue : list QueuedRequest;
  processingQueue : bool;
  timers : nat;
  enqueued : list QueuedRequest;
  resolved : list QueuedRequest
}.

(** [new RateLimiter(configs)] *)
Definition create (cfgs : gmap string RateLimitConfig) : state :=
  mkState cfgs ∅ [] false 0 [] [].

Definition getOrCreateBucket (now : Z) (k : string) (config : RateLimitConfig)
  (bs : gmap string TokenBucket) : TokenBucket * gmap string TokenBucket :=
  match bs !! k with
  | Some bucket => (bucket, bs)
  | None =>
      let bucket := mkBucket (maxRequests config) now in
      (bucket, <[k := bucket]> bs)
  end.

Definition refillBucket (now : Z) (bucket : TokenBucket)
  (config : RateLimitConfig) : TokenBucket :=
  let timePassed := inject_Z (now - lastRefill bucket) in
  let tokensToAdd := (timePassed / windowMs config * maxRequests config)%Q in
  mkBucket (Qmin (maxRequests config) (tokens bucket + tokensToAdd)%Q) now.

Definition calculateWaitTime (bucket : TokenBucket)
  (config : RateLimitConfig) : Q :=
  let tokensNeeded := (1 - tokens bucket)%Q in
  (tokensNeeded / maxRequests config * windowMs config)%Q.

(** [bucket.tokens -= 1] *)
Definition consume (bucket : TokenBucket) : TokenBucket :=
  mkBucket (tokens bucket - 1)%Q (lastRefill bucket).

(** The [while] loop of [processQueue], from one loop head up to the next
    [await] or to the exit of the loop.  No other code runs in between, so the
    queue is only changed by the loop's own [shift()].  The last component is
    [Some waitTime] when the loop stopped at the [await], [None] when it left
    the loop with an empty queue. *)
Fixpoint drainLoop (now : Z) (cfgs : gmap string RateLimitConfig)
  (q : list QueuedRequest) (bs : gmap string TokenBucket)
  (res : list QueuedRequest)
  : list QueuedRequest * gmap string TokenBucket * list QueuedRequest * option Q :=
  match q with
  | [] => ([], bs, res, None)
  | request :: rest =>
      match cfgs !! key request with
      | None => drainLoop now cfgs rest bs (res ++ [request])
      | Some config =>
          let '(bucket, bs1) := getOrCreateBucket now (key request) config bs in
          let bucket := refillBucket now bucket config in
          if Qle_bool 1 (tokens bucket)
          then drainLoop now cfgs rest
                 (<[key request := consume bucket]> bs1) (res ++ [request])
          else (q, <[key request := bucket]> bs1, res,
                Some (calculateWaitTime bucket config))
      end
  end.

(** Run the loop of a drain that is at its loop head; afterwards the drain is
    either suspended on a fresh timer or has executed
    [this.processingQueue = false]. *)
Definition drain (now : Z) (st : state) : state :=
  let '(q, bs, res, wait) :=
    drainLoop now (configs st) (queue st) (buckets st) (resolved st) in
  match wait with
  | Some _ =>
      mkState (configs st) bs q (processingQueue st) (S (timers st))
        (enqueued st) res
  | None =>
      mkState (configs st) bs q false (timers st) (enqueued st) res
  end.

Definition processQueue (now : Z) (st : state) : state :=
  if processingQueue st then st
  else drain now
         (mkState (configs st) (buckets st) (queue st) true (timers st)
            (enqueued st) (resolved st)).

(** A timer set by a drain loop fires and that loop goes on. *)
Definition timerFired (now : Z) (st : state) : state :=
  match timers st with
  | O => st
  | S n =>
      drain now
        (mkState (configs st) (buckets st) (queue st) (processingQueue st) n
           (enqueued st) (resolved st))
  end.

(** What the caller of [acquire] gets: the promise is fulfilled at once, is
    rejected with an error, or stays pending until [resolve] is called. *)
Inductive AcquireResult : Type :=
| Granted
| Rejected (e : Errors.error)
| Pending (request : QueuedRequest).

Definition acquire (now : Z) (k : string) (st : state) : AcquireResult * state :=
  match configs st !! k with
  | None =>
      (Rejected (Errors.newError
         ("No rate limit configuration found for key: " +:+ k)), st)
  | Some config =>
      let '(bucket, bs) := getOrCreateBucket now k config (buckets st) in
      let bucket := refillBucket now bucket config in
      if Qle_bool 1 (tokens bucket) then
        (Granted,
         mkState (configs st) (<[k := consume bucket]> bs) (queue st)
           (processingQueue st) (timers st) (enqueued st) (resolved st))
      else
        let bs' := <[k := bucket]> bs in
        match queueRequests config with
        | Some false =>
            let waitTime := calculateWaitTime bucket config in
            (Rejected (Errors.newError
               ("Rate limit exceeded for " +:+ k +:+ ". Wait " +:+
                string_of_Z (Qceiling (waitTime / 1000)) +:+
                "s before retrying.")),
             mkState (configs st) bs' (queue st) (processingQueue st)
               (timers st) (enqueued st) (resolved st))
        | _ =>
            let request := mkQueued k (length (enqueued st)) now in
            (Pending request,
             processQueue now
               (mkState (configs st) bs' (queue st ++ [request])
                  (processingQueue st) (timers st)
                  (enqueued st ++ [request]) (resolved st)))
        end
  end.

(** The number returned is [config.maxRequests] as it is when the key has no
    bucket yet, the floor of the refilled count otherwise; the bucket keeps
    the refilled count itself. *)
Definition getAvailableTokens (now : Z) (k : string) (st : state) : Q * state :=
  match configs st !! k with
  | None => (0%Q, st)
  | Some config =>
      match buckets st !! k with
      | None => (maxRequests config, st)
      | Some bucket =>
          let bucket := refillBucket now bucket config in
          (inject_Z (Qfloor (tokens bucket)),
           mkState (configs st) (<[k := bucket]> (buckets st)) (queue st)
             (processingQueue st) (timers st) (enqueued st) (resolved st))
      end
  end.

Definition reset (st : state) : state :=
  mkState (configs st) ∅ [] false (timers st) (enqueued st) (resolved st).

(** What can happen to a limiter, one synchronous block at a time. *)
Inductive Op : Type :=
| Acquire (k : string)
| GetAvailableTokens (k : string)
| Reset
| TimerFired.

Definition step (now : Z) (op : Op) (st : state) : state :=
  match op with
  | Acquire k => snd (acquire now k st)
  | GetAvailableTokens k => snd (getAvailableTokens now k st)
  | Reset => reset st
  | TimerFired => timerFired now st
  end.

(** A history: each operation with the value of [Date.now()] during it. *)
Fixpoint run (ops : list (Z * Op)) (st : state) : state :=
  match ops with
  | [] => st
  | (now, op) :: rest => run rest (step now op st)
  end.

(** The clock never goes back along a history. *)
Fixpoint clock_monotone (t : Z) (ops : list (Z * Op)) : Prop :=
  match ops with
  | [] => True
  | (now, _) :: rest => t <= now /\ clock_monotone now rest
  end.

Definition is_reset (op : Op) : bool :=
  match op with
  | Reset => true
  | _ => false
  end.

(** Capacities are not negative and windows are positive. *)
Definition config_wf (config : RateLimitConfig) : Prop :=
  (0 <= maxRequests config)%Q /\ (0 < windowMs config)%Q.

Definition configs_wf (cfgs : gmap string RateLimitConfig) : Prop :=
  forall k config, cfgs !! k = Some config -> config_wf config.

(** A bucket of key [k] is within bounds at time [now]: its key is
    configured, its count is between 0 and the capacity, and it was last
    refilled no later than [now]. *)
Definition bucket_ok (cfgs : gmap string RateLimitConfig) (now : Z)
  (k : string) (bucket : TokenBucket) : Prop :=
  exists config,
    cfgs !! k = Some config /\
    (0 <= tokens bucket)%Q /\ (tokens bucket <= maxRequests config)%Q /\
    lastRefill bucket <= now.

Definition buckets_ok (cfgs : gmap string RateLimitConfig) (now : Z)
  (bs : gmap string TokenBucket) : Prop :=
  forall k bucket, bs !! k = Some bucket -> bucket_ok cfgs now k bucket.

(** The ticket of a request is its position in the log of pushes. *)
Definition tickets_in_order (log : list QueuedRequest) : Prop :=
  forall i request, log !! i = Some request -> resolve request = i.



(** A history without [reset()]. *)
Definition no_reset (ops : list (Z * Op)) : Prop :=
  Forall (fun tick => is_reset (snd tick) = false) ops.

(** [DEFAULT_RATE_LIMITS] *)
Definition DEFAULT_RATE_LIMITS : gmap string RateLimitConfig :=
  list_to_map
    [ ("orders"%string, mkConfig 1 (60 * 1000) (Some true));
      ("inventory"%string, mkConfig 2 1000 (Some true));
      ("reports"%string, mkConfig 1 (45 * 1000) (Some true));
      ("products"%string, mkConfig 5 1000 (Some true));
      ("default"%string, mkConfig 1 1000 (Some true)) ].

End RateLimiter.

(** ** src/auth/token-manager.ts *)
Module TokenManager.

Definition LWA_TOKEN_ENDPOINT : string := "https://api.amazon.com/auth/o2/token".

Record LWACredentials : Type := mkCredentials {
  clientId : string;
  clientSecret : string;
  refreshToken : string
}.

Record CachedToken : Type := mkCached {
  accessToken : string;
  expiresAt : Z
}.

Record state : Type := mkState {
  credentials : LWACredentials;
  cachedToken : option CachedToken
}.

(** [new TokenManager(credentials)] *)
Definition create (creds : LWACredentials) : state := mkState creds None.

(** One call of the HTTP transport: [axios.post(url, form, {headers})]. *)
Record HttpPost : Type := mkPost {
  post_url : string;
  post_form : list (string * string);
  post_content_type : string
}.

(** An [AxiosError]: [response?.data?.error_description] and [message].
    A network failure has no response; a reply outside 2xx has one. *)
Record AxiosError : Type := mkAxiosError {
  response_data : option (option (option string));
  axios_message : string
}.

Definition error_description (err : AxiosError) : option string :=
  match response_data err with
  | Some (Some d) => d
  | _ => None
  end.

(** How the awaited [axios.post] ends: with a 2xx reply carrying
    [access_token] and [expires_in] (and the clock read after the reply),
    with an [AxiosError], or with some other thrown value. *)
Inductive PostOutcome : Type :=
| Replied (access_token : string) (expires_in : Z) (now_after : Z)
| AxiosFailed (err : AxiosError)
| Threw (e : Errors.error).

Definition isTokenValid (now : Z) (token : CachedToken) : bool :=
  let bufferTime := 5 * 60 * 1000 in
  now + bufferTime <? expiresAt token.

(** The result of an awaited call, the state afterwards and the HTTP calls
    that were issued, in order. *)
Definition refreshAccessToken (net : HttpPost -> PostOutcome) (st : state)
  : (Errors.error + string) * state * list HttpPost :=
  let call :=
    mkPost LWA_TOKEN_ENDPOINT
      [ ("grant_type", "refresh_token");
        ("refresh_token", refreshToken (credentials st));
        ("client_id", clientId (credentials st));
        ("client_secret", clientSecret (credentials st)) ]%string
      "application/x-www-form-urlencoded" in
  match net call with
  | Replied access_token expires_in now_after =>
      (inr access_token,
       mkState (credentials st)
         (Some (mkCached access_token (now_after + expires_in * 1000))),
       [call])
  | AxiosFailed err =>
      let msg :=
        match error_description err with
        | Some d => or_string d (axios_message err)
        | None => axios_message err
        end in
      (inl (Errors.newError ("Failed to refresh LWA access token: " +:+ msg)),
       st, [call])
  | Threw e => (inl e, st, [call])
  end.

Definition getAccessToken (now : Z) (net : HttpPost -> PostOutcome) (st : state)
  : (Errors.error + string) * state * list HttpPost :=
  match cachedToken st with
  | Some token =>
      if isTokenValid now token then (inr (accessToken token), st, [])
      else refreshAccessToken net st
  | None => refreshAccessToken net st
  end.

Definition clearCache (st : state) : state := mkState (credentials st) None.

Definition hasCachedToken (now : Z) (st : state) : bool :=
  match cachedToken st with
  | Some token => isTokenValid now token
  | None => false
  end.

End TokenManager.

(** ** src/utils/sp-api-client.ts *)
Module Client.
Import Errors.

Record RetryConfig : Type := mkRetry {
  maxRetries : Z;
  retryableStatusCodes : list Z;
  retryDelay : Q;
  backoffMultiplier : Q
}.

Definition DEFAULT_RETRY_CONFIG : RetryConfig :=
  mkRetry 3 [429; 500; 502; 503; 504] 1000 2.

(** [Partial<RetryConfig>] and the spread
    [{...DEFAULT_RETRY_CONFIG, ...options.retryConfig}] of the constructor. *)
Record PartialRetryConfig : Type := mkPartial {
  maxRetries_opt : option Z;
  retryableStatusCodes_opt : option (list Z);
  retryDelay_opt : option Q;
  backoffMultiplier_opt : option Q
}.

Definition mergeRetryConfig (p : option PartialRetryConfig) : RetryConfig :=
  match p with
  | None => DEFAULT_RETRY_CONFIG
  | Some p =>
      mkRetry
        (default (maxRetries DEFAULT_RETRY_CONFIG) (maxRetries_opt p))
        (default (retryableStatusCodes DEFAULT_RETRY_CONFIG)
           (retryableStatusCodes_opt p))
        (default (retryDelay DEFAULT_RETRY_CONFIG) (retryDelay_opt p))
        (default (backoffMultiplier DEFAULT_RETRY_CONFIG)
           (backoffMultiplier_opt p))
  end.

(** [SPAPIErrorResponse]: a body whose [errors] may be missing. *)
Record ErrorResponse : Type := mkBody {
  errors : option (list ErrorEntry)
}.

(** The part of an [AxiosResponse] the client reads.  Header names are in
    lower case, as axios delivers them. *)
Record AxiosResponse : Type := mkResponse {
  status : Z;
  data : option ErrorResponse;
  headers : gmap string string
}.

Definition createErrorFromResponse (response : AxiosResponse) : error :=
  let statusCode := status response in
  let '(message, code, details) :=
    match data response with
    | Some (mkBody (Some (firstError :: rest))) =>
        (entry_message firstError,
         entry_code firstError,
         match rest with
         | [] => DetailsText <$> entry_details firstError
         | _ :: _ => Some (DetailsErrors (firstError :: rest))
         end)
    | _ =>
        ("SP-API request failed with status " +:+ string_of_Z statusCode,
         None, None)
    end in
  if statusCode =? 429 then
    let retryAfter :=
      match headers response !! "retry-after"%string with
      | Some h => if truthy_string h then Some (parseInt10 h) else None
      | None => None
      end in
    newRateLimitError (or_string message "Rate limit exceeded") retryAfter details
  else if (statusCode =? 401) || (statusCode =? 403) then
    newSPAPIAuthError (or_string message "Authentication failed") details
  else if statusCode =? 400 then
    newSPAPIValidationError (or_string message "Invalid request") details
  else if (400 <=? statusCode) && (statusCode <? 500) then
    newSPAPIRequestError message statusCode code details
  else if 500 <=? statusCode then
    newSPAPIServerError message statusCode code details
  else
    newSPAPIError message code (Some statusCode) details.

Record AxiosError : Type := mkAxiosError {
  axios_response : option AxiosResponse;
  axios_code : option string;
  axios_message : string
}.

Definition createErrorFromAxiosError (err : AxiosError) : error :=
  match axios_response err with
  | Some response => createErrorFromResponse response
  | None =>
      if bool_decide (axios_code err = Some "ECONNABORTED"%string)
         || bool_decide (axios_code err = Some "ETIMEDOUT"%string)
      then newSPAPIError "Request timeout" None None None
      else if bool_decide (axios_code err = Some "ENOTFOUND"%string)
              || bool_decide (axios_code err = Some "ECONNREFUSED"%string)
      then newSPAPIError "Network error: Unable to reach SP-API" None None None
      else newSPAPIError (or_string (axios_message err) "HTTP request failed")
             (axios_code err) None None
  end.

(** [!error.statusCode] is false when the status is a non-zero number. *)
Definition truthy_status (st : option Z) : bool :=
  match st with
  | Some s => negb (s =? 0)
  | None => false
  end.

Definition isRetryableError (cfg : RetryConfig) (e : error) : bool :=
  if negb (instanceof e SPAPIError) then false
  else if negb (truthy_status (statusCode e)) then false
  else match statusCode e with
       | Some s => bool_decide (s ∈ retryableStatusCodes cfg)
       | None => false
       end.

(** How an awaited promise of a collaborator ends. *)
Inductive Settled (A : Type) : Type :=
| Fulfilled (a : A)
| RejectedWith (e : error)
| NeverSettled.
Arguments Fulfilled {A} a.
Arguments RejectedWith {A} e.
Arguments NeverSettled {A}.

(** How the awaited [axios(...)] call ends. *)
Inductive TransportOutcome : Type :=
| Responded (response : AxiosResponse)
| AxiosThrew (err : AxiosError)
| OtherThrew (msg : option string).

(** The collaborators of one [request] call, as the client sees them:
    [rateLimiter.acquire(key)], and for the attempt with a given
    [attemptNumber], [tokenManager.getAccessToken()] and the transport. *)
Record World : Type := mkWorld {
  acquireOutcome : string -> Settled unit;
  tokenOutcome : nat -> Settled string;
  transportOutcome : nat -> TransportOutcome
}.

(** The calls the client makes, in order. *)
Inductive Event : Type :=
| EvAcquire (key : string)
| EvGetAccessToken
| EvSignRequest
| EvTransport
| EvSleep (ms : Q).

Definition makeRequest (w : World) (attemptNumber : nat)
  : list Event * Settled AxiosResponse :=
  match tokenOutcome w attemptNumber with
  | RejectedWith e => ([EvGetAccessToken], RejectedWith e)
  | NeverSettled => ([EvGetAccessToken], NeverSettled)
  | Fulfilled accessToken =>
      ([EvGetAccessToken; EvSignRequest; EvTransport],
       match transportOutcome w attemptNumber with
       | Responded response =>
           if 400 <=? status response
           then RejectedWith (createErrorFromResponse response)
           else Fulfilled response
       | AxiosThrew err => RejectedWith (createErrorFromAxiosError err)
       | OtherThrew msg =>
           RejectedWith
             (newSPAPIError
                ("Unexpected error: " +:+ default "Unknown error"%string msg)
                None None None)
       end)
  end.

(** [error.retryAfter] read as a condition: [undefined], [NaN] and [0] are
    falsy. *)
Definition truthy_retryAfter (ra : option number) : bool :=
  match ra with
  | Some n => truthy_number n
  | None => false
  end.

(** [attemptNumber < this.retryConfig.maxRetries && this.isRetryableError(error)] *)
Definition shouldRetry (cfg : RetryConfig) (attemptNumber : nat) (e : error) : bool :=
  (Z.of_nat attemptNumber <? maxRetries cfg) && isRetryableError cfg e.

(** The argument of the [sleep] that precedes the next attempt. *)
Definition retrySleep (cfg : RetryConfig) (attemptNumber : nat) (e : error) : Q :=
  let delay :=
    (retryDelay cfg * backoffMultiplier cfg ^ Z.of_nat attemptNumber)%Q in
  if instanceof e RateLimitError && truthy_retryAfter (retryAfter e) then
    match retryAfter e with
    | Some (Num r) => inject_Z (r * 1000)
    | _ => delay
    end
  else delay.

(** [requestWithRetry]; the recursion is bounded by the retries left, and
    [None] is the result when the bound given is too small. *)
Fixpoint requestWithRetry_fuel (fuel : nat) (cfg : RetryConfig) (w : World)
  (attemptNumber : nat) : option (list Event * Settled AxiosResponse) :=
  match makeRequest w attemptNumber with
  | (tr, RejectedWith e) =>
      if shouldRetry cfg attemptNumber e then
        match fuel with
        | O => None
        | S fuel' =>
            match requestWithRetry_fuel fuel' cfg w (S attemptNumber) with
            | Some (tr', out) =>
                Some (tr ++ EvSleep (retrySleep cfg attemptNumber e) :: tr', out)
            | None => None
            end
        end
      else Some (tr, RejectedWith e)
  | (tr, out) => Some (tr, out)
  end.

Definition requestWithRetry (cfg : RetryConfig) (w : World)
  (attemptNumber : nat) : option (list Event * Settled AxiosResponse) :=
  requestWithRetry_fuel (Z.to_nat (maxRetries cfg - Z.of_nat attemptNumber))
    cfg w attemptNumber.

Definition request (cfg : RetryConfig) (w : World) (endpointKey : string)
  : option (list Event * Settled AxiosResponse) :=
  match acquireOutcome w endpointKey with
  | RejectedWith e => Some ([EvAcquire endpointKey], RejectedWith e)
  | NeverSettled => Some ([EvAcquire endpointKey], NeverSettled)
  | Fulfilled _ =>
      match requestWithRetry cfg w 0 with
      | Some (tr, out) => Some (EvAcquire endpointKey :: tr, out)
      | None => None
      end
  end.

(** [request(options)] with the default [endpointKey = 'default']. *)
Definition request_default (cfg : RetryConfig) (w : World) :=
  request cfg w "default".

Definition is_acquire (ev : Event) : bool :=
  match ev with
  | EvAcquire _ => true
  | _ => false
  end.

Definition is_transport (ev : Event) : bool :=
  match ev with
  | EvTransport => true
  | _ => false
  end.

Fixpoint count_events (p : Event -> bool) (tr : list Event) : nat :=
  match tr with
  | [] => O
  | ev :: rest => ((if p ev then 1 else 0) + count_events p rest)%nat
  end.

(** Number of rate-limit slots acquired, and of attempts sent. *)
Definition acquisitions (tr : list Event) : nat := count_events is_acquire tr.
Definition attempts (tr : list Event) : nat := count_events is_transport tr.

(** Every attempt sent is preceded, since the attempt before it, by the
    acquisition of a slot for [key]. *)
Fixpoint slot_before_each_attempt (key : string) (have_slot : bool)
  (tr : list Event) : bool :=
  match tr with
  | [] => true
  | EvAcquire k :: rest =>
      slot_before_each_attempt key (have_slot || bool_decide (k = key)) rest
  | EvTransport :: rest => have_slot && slot_before_each_attempt key false rest
  | _ :: rest => slot_before_each_attempt key have_slot rest
  end.

(** Every sleep is followed at once by the token fetch of the next
    attempt. *)
Fixpoint sleep_then_token (tr : list Event) : bool :=
  match tr with
  | [] => true
  | EvSleep _ :: rest =>
      match rest with
      | EvGetAccessToken :: _ => sleep_then_token rest
      | _ => false
      end
  | _ :: rest => sleep_then_token rest
  end.

End Client.


(** ** Accounting of the tokens handed out by the rate limiter *)
Module RateLimiterAccounting.
Import RateLimiter.






(** The drain loop is in step with its flag: one suspended loop exactly when
    [processingQueue] is set, and nobody waits while it is clear. *)
Definition single_drain (st : state) : Prop :=
  timers st = (if processingQueue st then 1%nat else 0%nat) /\
  (processingQueue st = false -> queue st = []).

(** Every configuration refuses to queue. *)
Definition queueing_disabled (cfgs : gmap string RateLimitConfig) : Prop :=
  forall k config, cfgs !! k = Some config -> queueRequests config = Some false.

End RateLimiterAccounting.

(** ** Repeated use of the token manager *)
Module TokenManagerRuns.
Import TokenManager.

(** [getAccessToken()] called once at each of the given clock readings, in
    order, against the same transport: the results, the final state and all
    HTTP calls issued. *)
Fixpoint getAccessTokenAt (nows : list Z) (net : HttpPost -> PostOutcome)
  (st : state) : list (Errors.error + string) * state * list HttpPost :=
  match nows with
  | [] => ([], st, [])
  | now :: rest =>
      let '(result, st1, calls1) := getAccessToken now net st in
      let '(results, st2, calls2) := getAccessTokenAt rest net st1 in
      (result :: results, st2, calls1 ++ calls2)
  end.

(** The readings of a clock that never goes back, starting at [t]. *)
Fixpoint ascending (t : Z) (nows : list Z) : Prop :=
  match nows with
  | [] => True
  | now :: rest => t <= now /\ ascending now rest
  end.

End TokenManagerRuns.

(** ** src/auth/credentials.ts *)
Module Credentials.

Record AWSCredentials : Type := mkAWS {
  accessKeyId : string;
  secretAccessKey : string;
  region : string
}.

Record SPAPIConfig : Type := mkSPAPIConfig {
  sellerId : string;
  marketplaceId : string;
  endpoint : string
}.

Record SPAPICredentials : Type := mkCredentials {
  aws : AWSCredentials;
  lwa : TokenManager.LWACredentials;
  config : SPAPIConfig
}.

(** [process.env.NAME || fallback]: a variable that is unset or empty gives
    the fallback. *)
Definition env_or (env : gmap string string) (name fallback : string) : string :=
  match env !! name with
  | Some value => or_string value fallback
  | None => fallback
  end.

Definition loadFromEnvironment (env : gmap string string) : SPAPICredentials :=
  mkCredentials
    (mkAWS (env_or env "AWS_ACCESS_KEY_ID" "")
       (env_or env "AWS_SECRET_ACCESS_KEY" "")
       (env_or env "AWS_REGION" "us-east-1"))
    (TokenManager.mkCredentials (env_or env "LWA_CLIENT_ID" "")
       (env_or env "LWA_CLIENT_SECRET" "")
       (env_or env "LWA_REFRESH_TOKEN" ""))
    (mkSPAPIConfig (env_or env "SELLER_ID" "")
       (env_or env "MARKETPLACE_ID" "")
       (env_or env "SP_API_ENDPOINT" "https://sellingpartnerapi-na.amazon.com")).

(** [if (!value) errors.push(msg)] *)
Definition push_unless (value msg : string) (errors : list string) : list string :=
  if truthy_string value then errors else errors ++ [msg].

(** The [errors] array of [validate] when all the checks have run. *)
Definition validation_errors (c : SPAPICredentials) : list string :=
  let errors := [] in
  let errors := push_unless (accessKeyId (aws c)) "AWS_ACCESS_KEY_ID is required" errors in
  let errors := push_unless (secretAccessKey (aws c)) "AWS_SECRET_ACCESS_KEY is required" errors in
  let errors := push_unless (TokenManager.clientId (lwa c)) "LWA_CLIENT_ID is required" errors in
  let errors := push_unless (TokenManager.clientSecret (lwa c)) "LWA_CLIENT_SECRET is required" errors in
  let errors := push_unless (TokenManager.refreshToken (lwa c)) "LWA_REFRESH_TOKEN is required" errors in
  let errors := push_unless (sellerId (config c)) "SELLER_ID is required" errors in
  let errors := push_unless (marketplaceId (config c)) "MARKETPLACE_ID is required" errors in
  errors.

(** The line feed of the template string. *)
Definition LF : string := String "010"%char EmptyString.

(** [validate]: [Some] is the error thrown. *)
Definition validate (c : SPAPICredentials) : option Errors.error :=
  match validation_errors c with
  | [] => None
  | errors =>
      Some (Errors.newError
              ("Missing required credentials:" +:+ LF +:+
               String.concat LF (map (fun e => "  - " +:+ e) errors)))
  end.

(** [new CredentialsManager()] in a given environment. *)
Definition create (env : gmap string string) : Errors.error + SPAPICredentials :=
  let credentials := loadFromEnvironment env in
  match validate credentials with
  | Some e => inl e
  | None => inr credentials
  end.

Definition getAWSCredentials (c : SPAPICredentials) : AWSCredentials := aws c.
Definition getLWACredentials (c : SPAPICredentials) : TokenManager.LWACredentials := lwa c.
Definition getSPAPIConfig (c : SPAPICredentials) : SPAPIConfig := config c.
Definition getAll (c : SPAPICredentials) : SPAPICredentials := c.

(** The variables that [validate] insists on, in the order of its checks. *)
Definition required_variables : list string :=
  [ "AWS_ACCESS_KEY_ID"; "AWS_SECRET_ACCESS_KEY"; "LWA_CLIENT_ID";
    "LWA_CLIENT_SECRET"; "LWA_REFRESH_TOKEN"; "SELLER_ID"; "MARKETPLACE_ID" ]%string.

(** A variable is missing when it is unset or set to the empty string. *)
Definition missing (env : gmap string string) (name : string) : Prop :=
  env_or env name "" = ""%string.

#[export] Instance missing_dec (env : gmap string string) (name : string) :
  Decision (missing env name).
Proof. unfold missing. apply _. Defined.

End Credentials.

(** ** src/config/sp-api.ts: the configuration singleton *)
Module Config.

(** An [SPAPIConfigManager]: the credentials it loaded and its token
    manager. *)
Record SPAPIConfigManager : Type := mkManager {
  credentialsManager : Credentials.SPAPICredentials;
  tokenManager : TokenManager.state
}.

(** [new SPAPIConfigManager()] in a given environment. *)
Definition create (env : gmap string string)
  : Errors.error + SPAPIConfigManager :=
  match Credentials.create env with
  | inl e => inl e
  | inr credentials =>
      inr (mkManager credentials
             (TokenManager.create (Credentials.getLWACredentials credentials)))
  end.

(** [getSPAPIConfig()]: the module variable [configInstance] is the state.
    The result is the instance (or the error thrown by the constructor)
    together with the new value of the variable. *)
Definition getSPAPIConfig (env : gmap string string)
  (configInstance : option SPAPIConfigManager)
  : (Errors.error + SPAPIConfigManager) * option SPAPIConfigManager :=
  match configInstance with
  | Some instance => (inr instance, configInstance)
  | None =>
      match create env with
      | inl e => (inl e, None)
      | inr instance => (inr instance, Some instance)
      end
  end.

Definition resetSPAPIConfig (configInstance : option SPAPIConfigManager)
  : option SPAPIConfigManager := None.

(** The method [getAccessToken] of an instance: it delegates to the token
    manager, whose cache is part of the instance. *)
Definition getAccessToken (now : Z)
  (net : TokenManager.HttpPost -> TokenManager.PostOutcome)
  (instance : SPAPIConfigManager)
  : (Errors.error + string) * SPAPIConfigManager * list TokenManager.HttpPost :=
  let '(result, tm, calls) :=
    TokenManager.getAccessToken now net (tokenManager instance) in
  (result, mkManager (credentialsManager instance) tm, calls).

(** [getSPAPIConfig().getAccessToken()]: the instance returned is the object
    the module variable refers to, so the variable sees the updated cache. *)
Definition getSharedAccessToken (now : Z)
  (net : TokenManager.HttpPost -> TokenManager.PostOutcome)
  (env : gmap string string) (configInstance : option SPAPIConfigManager)
  : (Errors.error + string) * option SPAPIConfigManager *
    list TokenManager.HttpPost :=
  match getSPAPIConfig env configInstance with
  | (inl e, variable) => (inl e, variable, [])
  | (inr instance, _) =>
      let '(result, instance', calls) := getAccessToken now net instance in
      (result, Some instance', calls)
  end.

End Config.

(** ** More of src/utils/sp-api-client.ts and src/utils/aws-signature.ts *)
Module ClientMore.
Import Errors Client.

(** The arguments of the [sleep] calls of a trace, in order. *)
Fixpoint sleeps (tr : list Event) : list Q :=
  match tr with
  | [] => []
  | EvSleep ms :: rest => ms :: sleeps rest
  | _ :: rest => sleeps rest
  end.

Definition is_token_fetch (ev : Event) : bool :=
  match ev with
  | EvGetAccessToken => true
  | _ => false
  end.

(** Number of attempts started (each starts with the token fetch). *)
Definition attempts_started (tr : list Event) : nat :=
  count_events is_token_fetch tr.

(** The outcome of an attempt ends the call: a response, a promise that
    never settles, or an error that is not retried. *)
Definition final_outcome (cfg : RetryConfig) (attemptNumber : nat)
  (out : Settled AxiosResponse) : Prop :=
  match out with
  | RejectedWith e => shouldRetry cfg attemptNumber e = false
  | _ => True
  end.

(** The headers object of [makeRequest] before signing:
    [{'x-amz-access-token': accessToken, 'Content-Type': 'application/json',
      ...options.headers}]; a later property replaces an earlier one with the
    same name. *)
Definition baseHeaders (accessToken : string)
  (optionsHeaders : gmap string string) : gmap string string :=
  optionsHeaders ∪
  <["Content-Type"%string := "application/json"%string]>
    (<["x-amz-access-token"%string := accessToken]> ∅).

(** The parts of [new URL(options.url)] that [signRequest] reads. *)
Record ParsedURL : Type := mkURL {
  url_host : string;
  url_pathname : string;
  url_search : string
}.

(** The request handed to [aws4.sign]. *)
Record SignerRequest : Type := mkSignerRequest {
  sr_host : string;
  sr_path : string;
  sr_method : string;
  sr_headers : gmap string string;
  sr_body : option string;
  sr_service : string;
  sr_region : string
}.

(** [signRequest]; [aws4_sign] stands for [aws4.sign] followed by
    [.headers], with the key pair it is given. *)
Definition signRequest
  (aws4_sign : SignerRequest -> string * string -> gmap string string)
  (method : string) (url : ParsedURL) (headers : gmap string string)
  (body : option string) (credentials : Credentials.AWSCredentials)
  : gmap string string :=
  let requestOptions :=
    mkSignerRequest (url_host url) (url_pathname url +:+ url_search url) method
      (<["host"%string := url_host url]> headers)
      body "execute-api" (Credentials.region credentials) in
  aws4_sign requestOptions
    (Credentials.accessKeyId credentials,
     Credentials.secretAccessKey credentials).

(** The headers sent by [makeRequest]: [Object.assign(headers, signedHeaders)]
    on the headers built before signing. *)
Definition sentHeaders
  (aws4_sign : SignerRequest -> string * string -> gmap string string)
  (method : string) (url : ParsedURL) (accessToken : string)
  (optionsHeaders : gmap string string) (body : option string)
  (credentials : Credentials.AWSCredentials) : gmap string string :=
  let headers := baseHeaders accessToken optionsHeaders in
  let signedHeaders := signRequest aws4_sign method url headers body credentials in
  signedHeaders ∪ headers.

End ClientMore.
(** ** Concrete inputs used by the examples below *)
Module Samples.
Import Errors Client.

(** The scenario of the specification: status 429 with retry-after "60". *)
Definition response_429_retry_after_60 : AxiosResponse :=
  mkResponse 429 None {[ "retry-after"%string := "60"%string ]}.

(** A 429 response whose first error has an empty message. *)
Definition response_429_empty_message : AxiosResponse :=
  mkResponse 429 (Some (mkBody (Some [mkEntry (Some "QuotaExceeded"%string) "" None]))) ∅.

(** A 403 response. *)
Definition response_403 : AxiosResponse :=
  mkResponse 403
    (Some (mkBody (Some [mkEntry (Some "Unauthorized"%string)
                           "Access to requested resource is denied." None]))) ∅.


(** A backend that answers every attempt with 503; the limiter grants the
    slot and the token manager returns a token. *)
Definition world_always_503 : World :=
  mkWorld (fun _ => Fulfilled tt) (fun _ => Fulfilled "Atza|token"%string)
    (fun _ => Responded (mkResponse 503 None ∅)).

(** A backend that answers 503 to the first attempt and 200 afterwards. *)
Definition world_503_then_200 : World :=
  mkWorld (fun _ => Fulfilled tt) (fun _ => Fulfilled "Atza|token"%string)
    (fun n => match n with
              | O => Responded (mkResponse 503 None ∅)
              | S _ => Responded (mkResponse 200 None ∅)
              end).

(** A 429 response with the header [retry-after: 0]. *)
Definition response_429_retry_after_0 : AxiosResponse :=
  mkResponse 429 None {[ "retry-after"%string := "0"%string ]}.

(** A backend that answers that 429 to the first attempt and 200 afterwards. *)
Definition world_429_retry_after_0 : World :=
  mkWorld (fun _ => Fulfilled tt) (fun _ => Fulfilled "Atza|token"%string)
    (fun n => match n with
              | O => Responded response_429_retry_after_0
              | S _ => Responded (mkResponse 200 None ∅)
              end).

(** LWA credentials and three token managers: one with an empty cache, one
    whose token expires in an hour, one whose token expires in four minutes
    (the clock of the examples reads 1000000). *)
Definition lwa_credentials : TokenManager.LWACredentials :=
  TokenManager.mkCredentials "client-id" "client-secret" "refresh-token".

Definition manager_empty : TokenManager.state :=
  TokenManager.create lwa_credentials.

Definition manager_fresh : TokenManager.state :=
  TokenManager.mkState lwa_credentials
    (Some (TokenManager.mkCached "Atza|cached" (1000000 + 3600 * 1000))).

Definition manager_expiring : TokenManager.state :=
  TokenManager.mkState lwa_credentials
    (Some (TokenManager.mkCached "Atza|old" (1000000 + 4 * 60 * 1000))).

(** An auth endpoint that issues a token valid for an hour. *)
Definition lwa_issues_token (_ : TokenManager.HttpPost) : TokenManager.PostOutcome :=
  TokenManager.Replied "Atza|new" 3600 1000050.

(** An auth endpoint that rejects the refresh token with a 400 reply. *)
Definition lwa_invalid_grant : TokenManager.AxiosError :=
  TokenManager.mkAxiosError
    (Some (Some (Some "The provided refresh token is invalid"%string)))
    "Request failed with status code 400".

Definition lwa_rejects (_ : TokenManager.HttpPost) : TokenManager.PostOutcome :=
  TokenManager.AxiosFailed lwa_invalid_grant.

(** The limiter of the unit tests: two requests per second, queueing. *)
Definition test_configs : gmap string RateLimiter.RateLimitConfig :=
  {[ "test"%string := RateLimiter.mkConfig 2 1000 (Some true) ]}.

(** Three acquisitions at time 0 (the third one waits), a drain wake-up half
    a second later, then a query. *)
Definition burst_history : list (Z * RateLimiter.Op) :=
  [ (0, RateLimiter.Acquire "test"); (0, RateLimiter.Acquire "test");
    (0, RateLimiter.Acquire "test"); (500, RateLimiter.TimerFired);
    (700, RateLimiter.GetAvailableTokens "test") ].

(** The limiter after two acquisitions at time 0: the bucket is empty. *)
Definition limiter_drained : RateLimiter.state :=
  RateLimiter.run
    [ (0, RateLimiter.Acquire "test"); (0, RateLimiter.Acquire "test") ]
    (RateLimiter.create test_configs).

(** Four acquisitions at time 0 on the test limiter (the last two wait, with
    tickets 0 and 1), then two drain wake-ups. *)
Definition two_waiters_history : list (Z * RateLimiter.Op) :=
  [ (0, RateLimiter.Acquire "test"); (0, RateLimiter.Acquire "test");
    (0, RateLimiter.Acquire "test"); (0, RateLimiter.Acquire "test");
    (500, RateLimiter.TimerFired); (1000, RateLimiter.TimerFired) ].

Definition waiter_A : RateLimiter.QueuedRequest := RateLimiter.mkQueued "test" 0 0.
Definition waiter_B : RateLimiter.QueuedRequest := RateLimiter.mkQueued "test" 1 0.

(** Three acquisitions at time 0 on the test limiter: the third one waits. *)
Definition one_waiter_history : list (Z * RateLimiter.Op) :=
  [ (0, RateLimiter.Acquire "test"); (0, RateLimiter.Acquire "test");
    (0, RateLimiter.Acquire "test") ].






End Samples.

(** ** More concrete inputs *)
Module MoreSamples.
Import Errors Client.

(** A limiter that refuses to queue: one request per second. *)
Definition strict_configs : gmap string RateLimiter.RateLimitConfig :=
  {[ "strict"%string := RateLimiter.mkConfig 1 1000 (Some false) ]}.

(** Three acquisitions within 200 ms on the strict limiter. *)
Definition strict_history : list (Z * RateLimiter.Op) :=
  [ (0, RateLimiter.Acquire "strict"); (100, RateLimiter.Acquire "strict");
    (200, RateLimiter.Acquire "strict") ].

(** A complete environment, one that lacks two required variables, and one
    in which a required variable is set to the empty string. *)
Definition env_complete : gmap string string :=
  list_to_map
    [ ("AWS_ACCESS_KEY_ID", "AKIATEST"); ("AWS_SECRET_ACCESS_KEY", "secret");
      ("LWA_CLIENT_ID", "client-id"); ("LWA_CLIENT_SECRET", "client-secret");
      ("LWA_REFRESH_TOKEN", "refresh-token"); ("SELLER_ID", "A1SELLER");
      ("MARKETPLACE_ID", "ATVPDKIKX0DER") ]%string.

Definition env_two_missing : gmap string string :=
  delete "SELLER_ID"%string (delete "AWS_ACCESS_KEY_ID"%string env_complete).

Definition env_empty_value : gmap string string :=
  <["LWA_CLIENT_ID"%string := ""%string]> env_complete.

(** A transport that times out on every attempt. *)
Definition world_timeout : World :=
  mkWorld (fun _ => Fulfilled tt) (fun _ => Fulfilled "Atza|token"%string)
    (fun _ => AxiosThrew
                (mkAxiosError None (Some "ETIMEDOUT"%string)
                   "timeout of 30000ms exceeded")).

(** A configuration that retries 401 but not 403. *)
Definition retry_401 : RetryConfig := mkRetry 3 [401; 429] 1000 2.

(** A signer that returns the headers it was given with an [Authorization]
    header added. *)
Definition toy_signer (request : ClientMore.SignerRequest)
  (keys : string * string) : gmap string string :=
  <["Authorization"%string := ("AWS4-HMAC-SHA256 " +:+ fst keys)%string]>
    (ClientMore.sr_headers request).

Definition aws_credentials : Credentials.AWSCredentials :=
  Credentials.mkAWS "AKIATEST" "secret" "us-east-1".

Definition orders_url : ClientMore.ParsedURL :=
  ClientMore.mkURL "api.example.com" "/orders" "?x=1".

(** The token manager cannot refresh: every token fetch throws the error of
    a failed refresh. *)
Definition refresh_error : error :=
  newError "Failed to refresh LWA access token: The provided refresh token is invalid".

Definition world_token_fails : World :=
  mkWorld (fun _ => Fulfilled tt) (fun _ => RejectedWith refresh_error)
    (fun _ => Responded (mkResponse 200 None ∅)).

(** A constructor argument that only turns retries off. *)
Definition no_retries : PartialRetryConfig := mkPartial (Some 0) None None None.

End MoreSamples.

(** * Properties *)

(** Case analysis on the body of a response: no body, no [errors] field, an
    empty array, or a first entry. *)
Ltac body_cases response :=
  destruct (Client.data response) as [[[[|? ?]|]]|].


(** Decide the integer comparisons of the goal. *)
Ltac status_tests :=
  repeat match goal with
    | |- context [Z.eqb ?a ?b] => destruct (Z.eqb_spec a b); try lia
    | |- context [Z.leb ?a ?b] => destruct (Z.leb_spec a b); try lia
    | |- context [Z.ltb ?a ?b] => destruct (Z.ltb_spec a b); try lia
    end.

(** ** Error classification *)
Section Classification.
Import Errors Client Samples.

Lemma or_string_truthy (a b : string) : a ≠ ""%string -> or_string a b = a.
Proof. destruct a; [congruence | reflexivity]. Qed.

Lemma or_string_empty (b : string) : or_string "" b = b.
Proof. reflexivity. Qed.

Lemma classify_rate_limit (response : AxiosResponse) :
  status response = 429 ->
  name (createErrorFromResponse response) = RateLimitError /\
  statusCode (createErrorFromResponse response) = Some 429.
Proof.
  intros Hs. unfold createErrorFromResponse. rewrite Hs.
  body_cases response; simpl; auto.
Qed.

Lemma classify_auth (response : AxiosResponse) :
  status response = 401 \/ status response = 403 ->
  name (createErrorFromResponse response) = SPAPIAuthError /\
  statusCode (createErrorFromResponse response) = Some 401 /\
  code (createErrorFromResponse response) = Some "UNAUTHORIZED"%string.
Proof.
  intros [Hs | Hs]; unfold createErrorFromResponse; rewrite Hs;
    body_cases response; simpl; auto.
Qed.

Lemma classify_validation (response : AxiosResponse) :
  status response = 400 ->
  name (createErrorFromResponse response) = SPAPIValidationError /\
  statusCode (createErrorFromResponse response) = Some 400.
Proof.
  intros Hs. unfold createErrorFromResponse. rewrite Hs.
  body_cases response; simpl; auto.
Qed.

Lemma classify_client (response : AxiosResponse) :
  400 <= status response < 500 ->
  status response ≠ 400 -> status response ≠ 401 ->
  status response ≠ 403 -> status response ≠ 429 ->
  name (createErrorFromResponse response) = SPAPIRequestError /\
  statusCode (createErrorFromResponse response) = Some (status response).
Proof.
  intros Hr H0 H1 H3 H9. unfold createErrorFromResponse.
  body_cases response; status_tests; simpl; auto.
Qed.

Lemma classify_server (response : AxiosResponse) :
  500 <= status response ->
  name (createErrorFromResponse response) = SPAPIServerError /\
  statusCode (createErrorFromResponse response) = Some (status response).
Proof.
  intros Hr. unfold createErrorFromResponse.
  body_cases response; status_tests; simpl; auto.
Qed.

Lemma retryAfter_of_header (response : AxiosResponse) :
  status response = 429 ->
  (forall h, headers response !! "retry-after"%string = Some h ->
             h ≠ ""%string ->
             retryAfter (createErrorFromResponse response) = Some (parseInt10 h)) /\
  (headers response !! "retry-after"%string = None ->
   retryAfter (createErrorFromResponse response) = None).
Proof.
  intros Hs. unfold createErrorFromResponse. rewrite Hs. split.
  - intros h Hh Hne. rewrite Hh.
    destruct h; [congruence |]. body_cases response; reflexivity.
  - intros Hh. rewrite Hh. body_cases response; reflexivity.
Qed.

Lemma message_of_first_entry (response : AxiosResponse)
  (first : ErrorEntry) (rest : list ErrorEntry) :
  data response = Some (mkBody (Some (first :: rest))) ->
  let e := createErrorFromResponse response in
  let s := status response in
  (entry_message first ≠ ""%string \/ (s ≠ 429 /\ s ≠ 401 /\ s ≠ 403 /\ s ≠ 400) ->
   message e = entry_message first) /\
  (entry_message first = ""%string -> s = 429 ->
   message e = "Rate limit exceeded"%string) /\
  (entry_message first = ""%string -> s = 401 \/ s = 403 ->
   message e = "Authentication failed"%string) /\
  (entry_message first = ""%string -> s = 400 ->
   message e = "Invalid request"%string) /\
  details e =
    match rest with
    | [] => DetailsText <$> entry_details first
    | _ :: _ => Some (DetailsErrors (first :: rest))
    end.
Proof.
  intros Hd e s. subst e s. unfold createErrorFromResponse. rewrite Hd.
  repeat split.
  - intros [Hne | (H9 & H1 & H3 & H0)].
    + status_tests; simpl; rewrite ?or_string_truthy; auto.
    + status_tests; simpl; auto.
  - intros Hm Hs. rewrite Hs, Hm. reflexivity.
  - intros Hm [Hs | Hs]; rewrite Hs, Hm; reflexivity.
  - intros Hm Hs. rewrite Hs, Hm. reflexivity.
  - status_tests; simpl; auto.
Qed.

Lemma string_of_Z_nonempty (z : Z) : string_of_Z z ≠ ""%string.
Proof.
  unfold string_of_Z. destruct (Z.to_int z) as [u | u]; simpl.
  - destruct u; simpl; congruence.
  - congruence.
Qed.

Lemma message_generic (response : AxiosResponse) :
  (forall first rest, data response ≠ Some (mkBody (Some (first :: rest)))) ->
  message (createErrorFromResponse response) =
    ("SP-API request failed with status " +:+ string_of_Z (status response)) /\
  details (createErrorFromResponse response) = None.
Proof.
  intros Hd. unfold createErrorFromResponse.
  destruct (data response) as [[[[|first rest]|]]|];
    try (exfalso; eapply Hd; reflexivity);
    status_tests; simpl; auto.
Qed.

(** C2, as amended: for a response with status >= 400 the class of the
    error follows the status (429 rate limit, 401 and 403 authentication, 400
    validation, other 4xx client request, 500 and above server fault); a 429
    error carries [parseInt] of a non-empty retry-after header; the message is
    the message of the first entry of a non-empty [errors] array, except that
    an empty message is replaced by a fixed text in the 429, 401, 403 and 400
    branches; the details are the whole array when it has several entries and
    the first entry's details otherwise; without a first entry the message
    is the generic text naming the status. *)
Theorem C2_error_classification (response : AxiosResponse) :
  400 <= status response ->
  let e := createErrorFromResponse response in
  let s := status response in
  (s = 429 ->
     name e = RateLimitError /\
     (forall h, headers response !! "retry-after"%string = Some h ->
                h ≠ ""%string -> retryAfter e = Some (parseInt10 h)) /\
     (headers response !! "retry-after"%string = None -> retryAfter e = None)) /\
  (s = 401 \/ s = 403 -> name e = SPAPIAuthError) /\
  (s = 400 -> name e = SPAPIValidationError) /\
  (s < 500 -> s ≠ 400 -> s ≠ 401 -> s ≠ 403 -> s ≠ 429 ->
     name e = SPAPIRequestError /\ statusCode e = Some s) /\
  (500 <= s -> name e = SPAPIServerError /\ statusCode e = Some s) /\
  (forall first rest,
     data response = Some (mkBody (Some (first :: rest))) ->
     (entry_message first ≠ ""%string \/
      (s ≠ 429 /\ s ≠ 401 /\ s ≠ 403 /\ s ≠ 400) ->
      message e = entry_message first) /\
     (entry_message first = ""%string -> s = 429 ->
      message e = "Rate limit exceeded"%string) /\
     (entry_message first = ""%string -> s = 401 \/ s = 403 ->
      message e = "Authentication failed"%string) /\
     (entry_message first = ""%string -> s = 400 ->
      message e = "Invalid request"%string) /\
     details e =
       match rest with
       | [] => DetailsText <$> entry_details first
       | _ :: _ => Some (DetailsErrors (first :: rest))
       end) /\
  ((forall first rest, data response ≠ Some (mkBody (Some (first :: rest)))) ->
   message e = ("SP-API request failed with status " +:+ string_of_Z s) /\
   details e = None).
Proof.
  intros Hge e s. subst e s.
  split; [| split; [| split; [| split; [| split; [| split]]]]].
  - intros Hs. split; [apply classify_rate_limit, Hs |].
    apply retryAfter_of_header, Hs.
  - intros Hs. apply classify_auth, Hs.
  - intros Hs. apply classify_validation, Hs.
  - intros Hlt H0 H1 H3 H9. apply classify_client; auto with zarith.
  - apply classify_server.
  - intros first rest Hd. apply message_of_first_entry, Hd.
  - apply message_generic.
Qed.

Lemma C2_error_classification_witness :
  400 <= status response_429_retry_after_60 /\
  name (createErrorFromResponse response_429_retry_after_60) = RateLimitError /\
  retryAfter (createErrorFromResponse response_429_retry_after_60) = Some (Num 60).
Proof.
  assert (Hge : 400 <= status response_429_retry_after_60) by (vm_compute; congruence).
  destruct (C2_error_classification response_429_retry_after_60 Hge)
    as [H429 _].
  destruct (H429 eq_refl) as (Hname & Hheader & _).
  split; [exact Hge |]. split; [exact Hname |].
  apply (Hheader "60"%string); [reflexivity | congruence].
Defined.

(** C2 as stated fails there: the body has a first entry, yet the message of
    the error is neither that entry's message nor the generic text. *)
Lemma C2_empty_message_counterexample :
  400 <= status response_429_empty_message /\
  data response_429_empty_message =
    Some (mkBody (Some [mkEntry (Some "QuotaExceeded"%string) "" None])) /\
  message (createErrorFromResponse response_429_empty_message) =
    "Rate limit exceeded"%string /\
  message (createErrorFromResponse response_429_empty_message) ≠
    entry_message (mkEntry (Some "QuotaExceeded"%string) "" None) /\
  message (createErrorFromResponse response_429_empty_message) ≠
    "SP-API request failed with status 429"%string.
Proof.
  repeat split; vm_compute; congruence.
Qed.

(** C10: a 401 or 403 response yields an authentication error whose status
    is 401 and whose code is UNAUTHORIZED; the 403 of the response is not
    kept. *)
Theorem C10_auth_error_status (response : AxiosResponse) :
  status response = 401 \/ status response = 403 ->
  name (createErrorFromResponse response) = SPAPIAuthError /\
  statusCode (createErrorFromResponse response) = Some 401 /\
  code (createErrorFromResponse response) = Some "UNAUTHORIZED"%string /\
  (status response = 403 ->
   statusCode (createErrorFromResponse response) ≠ Some (status response)).
Proof.
  intros Hs. destruct (classify_auth response Hs) as (Hn & Hc & Hk).
  repeat split; auto.
  intros H403. rewrite Hc, H403. congruence.
Qed.

Lemma C10_auth_error_status_witness :
  statusCode (createErrorFromResponse response_403) = Some 401 /\
  code (createErrorFromResponse response_403) = Some "UNAUTHORIZED"%string.
Proof.
  assert (Hs : status response_403 = 401 \/ status response_403 = 403)
    by (right; reflexivity).
  destruct (C10_auth_error_status response_403 Hs) as (_ & Hc & Hk & _).
  split; assumption.
Defined.

End Classification.

(** ** Retry orchestration *)
Section Retry.
Import Errors Client Samples.

Lemma count_events_app (p : Event -> bool) (a b : list Event) :
  count_events p (a ++ b) = (count_events p a + count_events p b)%nat.
Proof. induction a as [|ev a IH]; simpl; [reflexivity | rewrite IH; lia]. Qed.

Lemma makeRequest_acquisitions (w : World) (n : nat) :
  acquisitions (fst (makeRequest w n)) = O.
Proof. unfold makeRequest. destruct (tokenOutcome w n); reflexivity. Qed.

Lemma makeRequest_attempts (w : World) (n : nat) :
  (attempts (fst (makeRequest w n)) <= 1)%nat.
Proof.
  unfold makeRequest, attempts.
  destruct (tokenOutcome w n); simpl; lia.
Qed.

Lemma shouldRetry_attempt (cfg : RetryConfig) (n : nat) (e : error) :
  shouldRetry cfg n e = true -> Z.of_nat n < maxRetries cfg.
Proof.
  unfold shouldRetry. intros H. apply andb_prop in H as [H _]. lia.
Qed.

(** With as much fuel as there are retries left the recursion always ends,
    and the attempts acquire no slot. *)
Lemma requestWithRetry_fuel_enough (fuel : nat) (cfg : RetryConfig) (w : World) :
  forall n, maxRetries cfg - Z.of_nat n <= Z.of_nat fuel ->
  exists tr out,
    requestWithRetry_fuel fuel cfg w n = Some (tr, out) /\
    acquisitions tr = O /\
    (attempts tr <= S fuel)%nat.
Proof.
  induction fuel as [|fuel IH]; intros n Hfuel; simpl;
    pose proof (makeRequest_acquisitions w n) as Hacq;
    pose proof (makeRequest_attempts w n) as Hatt;
    destruct (makeRequest w n) as [tr [r | e |]]; simpl in Hacq, Hatt;
    try (eexists _, _; split; [reflexivity | split; [assumption | lia]]).
  - destruct (shouldRetry cfg n e) eqn:Hretry.
    + apply shouldRetry_attempt in Hretry. lia.
    + eexists _, _; split; [reflexivity | split; [assumption | lia]].
  - destruct (shouldRetry cfg n e) eqn:Hretry.
    + destruct (IH (S n)) as (tr' & out & Hrec & Hacq' & Hatt'); [lia |].
      rewrite Hrec. eexists _, _. split; [reflexivity |].
      unfold acquisitions, attempts in *.
      rewrite !count_events_app. simpl. split; lia.
    + eexists _, _; split; [reflexivity | split; [assumption | lia]].
Qed.

Lemma requestWithRetry_total (cfg : RetryConfig) (w : World) (n : nat) :
  exists tr out,
    requestWithRetry cfg w n = Some (tr, out) /\
    acquisitions tr = O /\
    (attempts tr <= S (Z.to_nat (maxRetries cfg - Z.of_nat n)))%nat.
Proof. apply requestWithRetry_fuel_enough. lia. Qed.

Lemma makeRequest_trace (w : World) (n : nat) :
  fst (makeRequest w n) = [EvGetAccessToken] \/
  fst (makeRequest w n) = [EvGetAccessToken; EvSignRequest; EvTransport].
Proof. unfold makeRequest. destruct (tokenOutcome w n); simpl; auto. Qed.

(** Each attempt starts with the token fetch, and so does what follows a
    sleep. *)
Lemma requestWithRetry_fuel_shape (cfg : RetryConfig) (w : World) (fuel : nat) :
  forall n tr out,
    requestWithRetry_fuel fuel cfg w n = Some (tr, out) ->
    (exists rest, tr = EvGetAccessToken :: rest) /\
    sleep_then_token tr = true.
Proof.
  induction fuel as [|fuel IH]; intros n tr out; simpl;
    pose proof (makeRequest_trace w n) as Htr;
    destruct (makeRequest w n) as [tr0 [r | e |]]; simpl in Htr;
    try (intros [= <- <-]; destruct Htr as [-> | ->]; split; eauto).
  - destruct (shouldRetry cfg n e); [discriminate |].
    intros [= <- <-]; destruct Htr as [-> | ->]; split; eauto.
  - destruct (shouldRetry cfg n e).
    + destruct (requestWithRetry_fuel fuel cfg w (S n)) as [[tr' out']|] eqn:Hrec;
        [| discriminate].
      destruct (IH _ _ _ Hrec) as [(rest & ->) Hsleep].
      intros [= <- <-]. destruct Htr as [-> | ->]; split; eauto.
    + intros [= <- <-]; destruct Htr as [-> | ->]; split; eauto.
Qed.

(** C1, as amended: every call of [request] acquires exactly one rate-limit
    slot, for its bucket key and before anything else; the attempts that
    follow, retries included, acquire none: after the sleep that precedes a
    retry the client goes straight to the token fetch. *)
Theorem C1_single_acquisition (cfg : RetryConfig) (w : World) (key : string) :
  exists tr out,
    request cfg w key = Some (EvAcquire key :: tr, out) /\
    acquisitions tr = O /\
    acquisitions (EvAcquire key :: tr) = 1%nat /\
    sleep_then_token tr = true.
Proof.
  unfold request. destruct (acquireOutcome w key) as [[] | e |].
  - destruct (requestWithRetry_total cfg w 0) as (tr & out & Hrun & Hacq & _).
    rewrite Hrun. exists tr, out. split; [reflexivity |].
    split; [assumption |]. unfold acquisitions in *. simpl.
    split; [lia |].
    apply (requestWithRetry_fuel_shape cfg w _ _ _ _ Hrun).
  - exists [], (RejectedWith e). repeat split.
  - exists [], NeverSettled. repeat split.
Qed.

(** C1 as stated fails: after a 503 the attempt is sent again, to a 200, and
    no slot is acquired between the two transport calls. *)
Lemma C1_retry_without_slot_counterexample :
  exists tr response,
    request DEFAULT_RETRY_CONFIG world_503_then_200 "orders" =
      Some (tr, Fulfilled response) /\
    tr = [EvAcquire "orders"; EvGetAccessToken; EvSignRequest; EvTransport;
          EvSleep 1000; EvGetAccessToken; EvSignRequest; EvTransport] /\
    attempts tr = 2%nat /\
    acquisitions tr = 1%nat /\
    slot_before_each_attempt "orders" false tr = false.
Proof.
  eexists _, _. split; [vm_compute; reflexivity |].
  repeat split; reflexivity.
Qed.

Lemma isRetryableError_iff (cfg : RetryConfig) (e : error) :
  isRetryableError cfg e = true <->
  instanceof e SPAPIError = true /\
  exists s, statusCode e = Some s /\ s ≠ 0 /\ s ∈ retryableStatusCodes cfg.
Proof.
  unfold isRetryableError.
  destruct (instanceof e SPAPIError); simpl.
  - destruct (statusCode e) as [s|]; simpl.
    + destruct (Z.eqb_spec s 0) as [Hz | Hz]; simpl.
      * split; [discriminate |].
        intros (_ & s' & Hs & Hne & _). congruence.
      * rewrite bool_decide_eq_true. split.
        -- intros Hin. split; [reflexivity |]. exists s. auto.
        -- intros (_ & s' & Hs & _ & Hin). congruence.
    + split; [discriminate |]. intros (_ & s & Hs & _). discriminate.
  - split; [discriminate |]. intros (H & _). discriminate.
Qed.

Lemma shouldRetry_iff (cfg : RetryConfig) (n : nat) (e : error) :
  shouldRetry cfg n e = true <->
  instanceof e SPAPIError = true /\
  (exists s, statusCode e = Some s /\ s ≠ 0 /\ s ∈ retryableStatusCodes cfg) /\
  Z.of_nat n < maxRetries cfg.
Proof.
  unfold shouldRetry. rewrite andb_true_iff, isRetryableError_iff, Z.ltb_lt.
  tauto.
Qed.

Lemma retrySleep_retry_after (cfg : RetryConfig) (n : nat) (e : error) (r : Z) :
  instanceof e RateLimitError = true -> retryAfter e = Some (Num r) -> r ≠ 0 ->
  retrySleep cfg n e = inject_Z (r * 1000).
Proof.
  intros Hi Hr Hne. unfold retrySleep. rewrite Hi, Hr. simpl.
  destruct (Z.eqb_spec r 0); [contradiction | reflexivity].
Qed.

Lemma retrySleep_backoff (cfg : RetryConfig) (n : nat) (e : error) :
  instanceof e RateLimitError = false \/ retryAfter e = None \/
  retryAfter e = Some NaN \/ retryAfter e = Some (Num 0) ->
  retrySleep cfg n e =
    (retryDelay cfg * backoffMultiplier cfg ^ Z.of_nat n)%Q.
Proof.
  unfold retrySleep.
  intros [H | [H | [H | H]]]; rewrite H; simpl;
    rewrite ?andb_false_r; reflexivity.
Qed.

Lemma instanceof_server_error (e : error) :
  name e = SPAPIServerError -> instanceof e SPAPIError = true.
Proof. intros H. unfold instanceof. rewrite H. reflexivity. Qed.

(** A backend that always answers 503 uses up every retry. *)
Lemma always_503_exhausts (cfg : RetryConfig) (w : World) :
  503 ∈ retryableStatusCodes cfg ->
  (forall n, exists t, tokenOutcome w n = Fulfilled t) ->
  (forall n, exists r, transportOutcome w n = Responded r /\ status r = 503) ->
  forall fuel n, Z.of_nat n + Z.of_nat fuel = maxRetries cfg ->
  exists tr e,
    requestWithRetry_fuel fuel cfg w n = Some (tr, RejectedWith e) /\
    attempts tr = S fuel /\
    name e = SPAPIServerError /\ statusCode e = Some 503.
Proof.
  intros Hcode Htok Hsend.
  assert (Hattempt : forall n, exists e,
            makeRequest w n =
              ([EvGetAccessToken; EvSignRequest; EvTransport], RejectedWith e) /\
            name e = SPAPIServerError /\ statusCode e = Some 503).
  { intros n. destruct (Htok n) as [t Ht]. destruct (Hsend n) as (r & Hr & Hs).
    exists (createErrorFromResponse r). unfold makeRequest.
    rewrite Ht, Hr, Hs. simpl.
    destruct (classify_server r) as [Hn Hc]; [lia |].
    rewrite Hs in Hc. auto. }
  induction fuel as [|fuel IH]; intros n Hn;
    destruct (Hattempt n) as (e & Hmk & Hname & Hst); simpl; rewrite Hmk.
  - assert (Hno : shouldRetry cfg n e = false).
    { unfold shouldRetry. destruct (Z.ltb_spec (Z.of_nat n) (maxRetries cfg)); [lia | reflexivity]. }
    rewrite Hno. exists [EvGetAccessToken; EvSignRequest; EvTransport], e.
    repeat split; auto.
  - assert (Hyes : shouldRetry cfg n e = true).
    { apply shouldRetry_iff. split; [apply instanceof_server_error, Hname |].
      split; [| lia]. exists 503. repeat split; auto; lia. }
    rewrite Hyes.
    destruct (IH (S n)) as (tr' & e' & Hrec & Hatt & Hname' & Hst'); [lia |].
    rewrite Hrec. eexists _, e'. split; [reflexivity |].
    unfold attempts in *. rewrite count_events_app. simpl.
    rewrite Hatt. repeat split; auto.
Qed.

(** C3, as amended.  For every retry configuration:
    - a failed attempt is followed by another one exactly when the error is
      an [SPAPIError] whose status is a non-zero number listed in
      [retryableStatusCodes] and fewer than [maxRetries] attempts came
      before; otherwise the error is thrown;
    - the sleep before the next attempt is
      [retryDelay * backoffMultiplier ^ attemptNumber], except for a
      rate-limit error whose [retryAfter] is a non-zero number, where it is
      that many seconds; a [retryAfter] of 0 or NaN does not replace the
      computed delay;
    - the defaults are 3 retries, statuses 429, 500, 502, 503, 504, 1000 ms
      and a multiplier of 2;
    - no call sends more than [maxRetries + 1] attempts, and with
      [maxRetries = 3] a backend that always answers 503 gets exactly 4 and
      the call fails with a server error. *)
Theorem C3_retry_policy (cfg : RetryConfig) :
  (forall n e,
     shouldRetry cfg n e = true <->
     instanceof e SPAPIError = true /\
     (exists s, statusCode e = Some s /\ s ≠ 0 /\ s ∈ retryableStatusCodes cfg) /\
     Z.of_nat n < maxRetries cfg) /\
  (forall w fuel n tr e,
     makeRequest w n = (tr, RejectedWith e) ->
     requestWithRetry_fuel (S fuel) cfg w n =
       if shouldRetry cfg n e
       then match requestWithRetry_fuel fuel cfg w (S n) with
            | Some (tr', out) =>
                Some (tr ++ EvSleep (retrySleep cfg n e) :: tr', out)
            | None => None
            end
       else Some (tr, RejectedWith e)) /\
  (forall n e r,
     instanceof e RateLimitError = true -> retryAfter e = Some (Num r) ->
     r ≠ 0 -> retrySleep cfg n e = inject_Z (r * 1000)) /\
  (forall n e,
     instanceof e RateLimitError = false \/ retryAfter e = None \/
     retryAfter e = Some NaN \/ retryAfter e = Some (Num 0) ->
     retrySleep cfg n e =
       (retryDelay cfg * backoffMultiplier cfg ^ Z.of_nat n)%Q) /\
  DEFAULT_RETRY_CONFIG = mkRetry 3 [429; 500; 502; 503; 504] 1000 2 /\
  (forall w key tr out,
     request cfg w key = Some (tr, out) ->
     (attempts tr <= S (Z.to_nat (maxRetries cfg)))%nat) /\
  (forall w key,
     maxRetries cfg = 3 ->
     503 ∈ retryableStatusCodes cfg ->
     acquireOutcome w key = Fulfilled tt ->
     (forall n, exists t, tokenOutcome w n = Fulfilled t) ->
     (forall n, exists r, transportOutcome w n = Responded r /\ status r = 503) ->
     exists tr e,
       request cfg w key = Some (tr, RejectedWith e) /\
       attempts tr = 4%nat /\
       name e = SPAPIServerError).
Proof.
  split; [apply shouldRetry_iff |].
  split.
  { intros w fuel n tr e Hmk. simpl. rewrite Hmk. reflexivity. }
  split; [apply retrySleep_retry_after |].
  split; [apply retrySleep_backoff |].
  split; [reflexivity |].
  split.
  - intros w key tr out. unfold request.
    destruct (acquireOutcome w key) as [[] | e |].
    + destruct (requestWithRetry_total cfg w 0) as (tr0 & out0 & Hrun & _ & Hatt).
      rewrite Hrun. intros [= <- <-]. unfold attempts in *. simpl.
      replace (maxRetries cfg - Z.of_nat 0) with (maxRetries cfg) in Hatt by lia.
      exact Hatt.
    + intros [= <- <-]. unfold attempts. simpl. lia.
    + intros [= <- <-]. unfold attempts. simpl. lia.
  - intros w key Hmax Hcode Hacq Htok Hsend.
    destruct (always_503_exhausts cfg w Hcode Htok Hsend 3%nat 0%nat)
      as (tr & e & Hrun & Hatt & Hname & _); [rewrite Hmax; reflexivity |].
    exists (EvAcquire key :: tr), e.
    unfold request, requestWithRetry. rewrite Hacq, Hmax.
    change (Z.to_nat (3 - Z.of_nat 0)) with 3%nat.
    rewrite Hrun. repeat split; auto.
Qed.

(** The retry ceiling on the default configuration. *)
Lemma C3_retry_policy_witness :
  exists tr e,
    request DEFAULT_RETRY_CONFIG world_always_503 "default" =
      Some (tr, RejectedWith e) /\
    attempts tr = 4%nat /\ name e = SPAPIServerError.
Proof.
  destruct (C3_retry_policy DEFAULT_RETRY_CONFIG)
    as (_ & _ & _ & _ & _ & _ & Hceiling).
  apply Hceiling.
  - reflexivity.
  - simpl. repeat constructor.
  - reflexivity.
  - intros n. eexists. reflexivity.
  - intros n. eexists. split; reflexivity.
Defined.

(** C3 as stated fails: the 429 error carries [retryAfter = 0], and the
    sleep before the retry is the computed 1000 ms, not 0 s. *)
Lemma C3_retry_after_zero_counterexample :
  exists tr0 e,
    makeRequest world_429_retry_after_0 0 = (tr0, RejectedWith e) /\
    name e = RateLimitError /\
    retryAfter e = Some (Num 0) /\
    shouldRetry DEFAULT_RETRY_CONFIG 0 e = true /\
    retrySleep DEFAULT_RETRY_CONFIG 0 e = 1000%Q /\
    ~ (retrySleep DEFAULT_RETRY_CONFIG 0 e == inject_Z (0 * 1000))%Q /\
    exists response,
      request DEFAULT_RETRY_CONFIG world_429_retry_after_0 "default" =
        Some ([EvAcquire "default"; EvGetAccessToken; EvSignRequest;
               EvTransport; EvSleep 1000; EvGetAccessToken; EvSignRequest;
               EvTransport], Fulfilled response).
Proof.
  eexists _, _. split; [vm_compute; reflexivity |].
  split; [reflexivity |]. split; [reflexivity |].
  split; [vm_compute; reflexivity |].
  split; [vm_compute; reflexivity |].
  split; [vm_compute; discriminate |].
  eexists. vm_compute. reflexivity.
Qed.

End Retry.

(** ** Access-token cache *)
Section TokenCache.
Import TokenManager Samples.

Lemma append_empty_r (s : string) : s +:+ "" = s.
Proof.
  induction s as [|c s IH]; [reflexivity |].
  unfold String.append; fold String.append. f_equal. exact IH.
Qed.

Lemma isTokenValid_iff (now : Z) (token : CachedToken) :
  isTokenValid now token = true <-> now + 5 * 60 * 1000 < expiresAt token.
Proof. unfold isTokenValid. apply Z.ltb_lt. Qed.

(** A refresh issues one POST to the LWA endpoint, whatever the reply. *)
Lemma refreshAccessToken_one_call (net : HttpPost -> PostOutcome) (st : state) :
  exists result st' call,
    refreshAccessToken net st = (result, st', [call]) /\
    post_url call = LWA_TOKEN_ENDPOINT /\
    post_form call =
      [ ("grant_type", "refresh_token");
        ("refresh_token", refreshToken (credentials st));
        ("client_id", clientId (credentials st));
        ("client_secret", clientSecret (credentials st)) ]%string.
Proof.
  unfold refreshAccessToken.
  match goal with |- context [net ?c] => destruct (net c) end;
    eexists _, _, _; repeat split.
Qed.

(** A refresh that fails leaves the state as it was. *)
Lemma refreshAccessToken_failure_keeps_state (net : HttpPost -> PostOutcome)
  (st st' : state) (e : Errors.error) (calls : list HttpPost) :
  refreshAccessToken net st = (inl e, st', calls) -> st' = st.
Proof.
  unfold refreshAccessToken.
  match goal with |- context [net ?c] => destruct (net c) end;
    intros [= <- <- <-] || intros [=]; congruence.
Qed.

(** C7: a cached token that expires more than five minutes from now is
    returned without any HTTP call and the state is unchanged; with no cached
    token, or one that expires within five minutes, the call issues exactly
    one POST of the refresh grant to the LWA endpoint. *)
Theorem C7_token_cache (now : Z) (net : HttpPost -> PostOutcome) (st : state) :
  (forall token,
     cachedToken st = Some token ->
     now + 5 * 60 * 1000 < expiresAt token ->
     getAccessToken now net st = (inr (accessToken token), st, [])) /\
  (cachedToken st = None \/
   (exists token, cachedToken st = Some token /\
                  expiresAt token <= now + 5 * 60 * 1000) ->
   exists result st' call,
     getAccessToken now net st = (result, st', [call]) /\
     post_url call = LWA_TOKEN_ENDPOINT /\
     post_form call =
       [ ("grant_type", "refresh_token");
         ("refresh_token", refreshToken (credentials st));
         ("client_id", clientId (credentials st));
         ("client_secret", clientSecret (credentials st)) ]%string).
Proof.
  split.
  - intros token Hc Hvalid. unfold getAccessToken. rewrite Hc.
    apply isTokenValid_iff in Hvalid. rewrite Hvalid. reflexivity.
  - intros Hstale. unfold getAccessToken.
    destruct Hstale as [Hc | (token & Hc & Hexp)]; rewrite Hc.
    + apply refreshAccessToken_one_call.
    + destruct (isTokenValid now token) eqn:Hv.
      * apply isTokenValid_iff in Hv. lia.
      * apply refreshAccessToken_one_call.
Qed.

Lemma C7_token_cache_witness :
  getAccessToken 1000000 lwa_issues_token manager_fresh =
    (inr "Atza|cached"%string, manager_fresh, []) /\
  (exists result st' call,
     getAccessToken 1000000 lwa_issues_token manager_expiring =
       (result, st', [call])) /\
  (exists result st' call,
     getAccessToken 1000000 lwa_issues_token manager_empty =
       (result, st', [call])).
Proof.
  split; [| split].
  - apply (proj1 (C7_token_cache 1000000 lwa_issues_token manager_fresh)
             (mkCached "Atza|cached" (1000000 + 3600 * 1000)));
      [reflexivity | vm_compute; reflexivity].
  - destruct (proj2 (C7_token_cache 1000000 lwa_issues_token manager_expiring))
      as (result & st' & call & Hrun & _).
    + right. eexists. split; [reflexivity | vm_compute; congruence].
    + eauto.
  - destruct (proj2 (C7_token_cache 1000000 lwa_issues_token manager_empty))
      as (result & st' & call & Hrun & _).
    + left. reflexivity.
    + eauto.
Defined.

(** C8: when a refresh is needed and the HTTP call fails with an
    [AxiosError] (no response at all, or a response outside 2xx),
    [getAccessToken] throws an [Error] whose message is
    "Failed to refresh LWA access token: " followed by the upstream
    [error_description] when the response has one, by the transport's own
    message otherwise; the manager's state, cached token included, is what it
    was before the call.  No failed call, of any kind, changes the state. *)
Theorem C8_refresh_failure (now : Z) (net : HttpPost -> PostOutcome)
  (st : state) (err : AxiosError) :
  hasCachedToken now st = false ->
  (forall call, net call = AxiosFailed err) ->
  (exists msg call,
     getAccessToken now net st =
       (inl (Errors.newError ("Failed to refresh LWA access token: " +:+ msg)),
        st, [call]) /\
     (forall d, error_description err = Some d -> exists rest, msg = d +:+ rest) /\
     (forall d, error_description err = Some d -> d ≠ ""%string -> msg = d) /\
     (error_description err = None -> msg = axios_message err)) /\
  (forall net' e st' calls,
     getAccessToken now net' st = (inl e, st', calls) -> st' = st).
Proof.
  intros Hstale Hnet. split.
  - assert (Hrefresh : getAccessToken now net st = refreshAccessToken net st).
    { unfold getAccessToken, hasCachedToken in *.
      destruct (cachedToken st) as [token|]; [| reflexivity].
      rewrite Hstale. reflexivity. }
    rewrite Hrefresh. unfold refreshAccessToken. rewrite Hnet.
    eexists _, _. split; [reflexivity |].
    destruct (error_description err) as [d|].
    + split; [| split].
      * intros d' [= <-]. destruct d as [|c d].
        -- exists (axios_message err). reflexivity.
        -- exists ""%string. rewrite append_empty_r. reflexivity.
      * intros d' [= <-] Hne. apply or_string_truthy, Hne.
      * discriminate.
    + split; [| split]; try discriminate. reflexivity.
  - intros net' e st' calls. unfold getAccessToken, hasCachedToken in *.
    destruct (cachedToken st) as [token|].
    + rewrite Hstale. apply refreshAccessToken_failure_keeps_state.
    + apply refreshAccessToken_failure_keeps_state.
Qed.

Lemma C8_refresh_failure_witness :
  getAccessToken 1000000 lwa_rejects manager_expiring =
    (inl (Errors.newError
       "Failed to refresh LWA access token: The provided refresh token is invalid"),
     manager_expiring,
     [mkPost LWA_TOKEN_ENDPOINT
        [ ("grant_type", "refresh_token");
          ("refresh_token", "refresh-token");
          ("client_id", "client-id");
          ("client_secret", "client-secret") ]%string
        "application/x-www-form-urlencoded"]).
Proof.
  destruct (C8_refresh_failure 1000000 lwa_rejects manager_expiring
              lwa_invalid_grant) as [(msg & call & Hrun & _ & Hdesc & _) _].
  - vm_compute. reflexivity.
  - intros call. reflexivity.
  - rewrite Hrun.
    rewrite (Hdesc "The provided refresh token is invalid"%string)
      by (reflexivity || discriminate).
    vm_compute in Hrun. injection Hrun as _ Hcall. rewrite <- Hcall.
    reflexivity.
Defined.

End TokenCache.

(** ** Token buckets *)
Section Buckets.
Import RateLimiter Samples.

Lemma inject_Z_nonneg (d : Z) : 0 <= d -> (0 <= inject_Z d)%Q.
Proof. intros H. change 0%Q with (inject_Z 0). rewrite <- Zle_Qle. exact H. Qed.

Lemma tokensToAdd_nonneg (config : RateLimitConfig) (d : Z) :
  config_wf config -> 0 <= d ->
  (0 <= inject_Z d / windowMs config * maxRequests config)%Q.
Proof.
  intros [Hcap Hwin] Hd. apply Qmult_le_0_compat; [| exact Hcap].
  apply Qle_shift_div_l; [exact Hwin |].
  rewrite Qmult_0_l. apply inject_Z_nonneg, Hd.
Qed.

(** Refill caps the count at the capacity, whatever the bucket held. *)
Lemma refill_le_capacity (now : Z) (bucket : TokenBucket) (config : RateLimitConfig) :
  (tokens (refillBucket now bucket config) <= maxRequests config)%Q.
Proof. unfold refillBucket. simpl. apply Q.le_min_l. Qed.

(** Refill never takes tokens away from a bucket that is within capacity,
    when the clock has not gone back. *)
Lemma refill_increases (now : Z) (bucket : TokenBucket) (config : RateLimitConfig) :
  config_wf config -> lastRefill bucket <= now ->
  (tokens bucket <= maxRequests config)%Q ->
  (tokens bucket <= tokens (refillBucket now bucket config))%Q.
Proof.
  intros Hwf Ht Hcap. unfold refillBucket. simpl.
  apply Q.min_glb; [exact Hcap |].
  pose proof (tokensToAdd_nonneg config (now - lastRefill bucket) Hwf) as Hadd.
  specialize (Hadd ltac:(lia)). lra.
Qed.

Lemma refill_ok (cfgs : gmap string RateLimitConfig) (t now : Z) (k : string)
  (bucket : TokenBucket) (config : RateLimitConfig) :
  cfgs !! k = Some config -> config_wf config -> t <= now ->
  bucket_ok cfgs t k bucket ->
  bucket_ok cfgs now k (refillBucket now bucket config).
Proof.
  intros Hk Hwf Ht (config' & Hk' & H0 & Hcap & Hlast).
  assert (config' = config) as -> by congruence.
  exists config. split; [exact Hk |].
  split; [| split; [apply refill_le_capacity | simpl; lia]].
  eapply Qle_trans; [exact H0 |].
  apply refill_increases; [exact Hwf | lia | exact Hcap].
Qed.

Lemma consume_ok (cfgs : gmap string RateLimitConfig) (now : Z) (k : string)
  (bucket : TokenBucket) :
  Qle_bool 1 (tokens bucket) = true ->
  bucket_ok cfgs now k bucket -> bucket_ok cfgs now k (consume bucket).
Proof.
  intros Hone (config & Hk & H0 & Hcap & Hlast).
  apply Qle_bool_iff in Hone.
  exists config. unfold consume. simpl. repeat split; auto; lra.
Qed.

Lemma buckets_ok_later (cfgs : gmap string RateLimitConfig) (t now : Z)
  (bs : gmap string TokenBucket) :
  t <= now -> buckets_ok cfgs t bs -> buckets_ok cfgs now bs.
Proof.
  intros Ht Hok k bucket Hb.
  destruct (Hok k bucket Hb) as (config & Hk & H0 & Hcap & Hlast).
  exists config. repeat split; auto. lia.
Qed.

Lemma buckets_ok_insert (cfgs : gmap string RateLimitConfig) (now : Z)
  (bs : gmap string TokenBucket) (k : string) (bucket : TokenBucket) :
  buckets_ok cfgs now bs -> bucket_ok cfgs now k bucket ->
  buckets_ok cfgs now (<[k := bucket]> bs).
Proof.
  intros Hok Hb k' bucket' Hlook.
  destruct (decide (k = k')) as [<- | Hne].
  - rewrite lookup_insert_eq in Hlook. congruence.
  - rewrite lookup_insert_ne in Hlook by exact Hne. apply Hok, Hlook.
Qed.

Lemma buckets_ok_empty (cfgs : gmap string RateLimitConfig) (now : Z) :
  buckets_ok cfgs now ∅.
Proof. intros k bucket Hb. rewrite lookup_empty in Hb. discriminate. Qed.

Lemma getOrCreateBucket_ok (cfgs : gmap string RateLimitConfig) (now : Z)
  (k : string) (config : RateLimitConfig) (bs bs' : gmap string TokenBucket)
  (bucket : TokenBucket) :
  cfgs !! k = Some config -> config_wf config ->
  buckets_ok cfgs now bs ->
  getOrCreateBucket now k config bs = (bucket, bs') ->
  buckets_ok cfgs now bs' /\ bucket_ok cfgs now k bucket.
Proof.
  intros Hk [Hcap Hwin] Hok. unfold getOrCreateBucket.
  destruct (bs !! k) as [b|] eqn:Hb; intros [= <- <-].
  - split; [exact Hok | apply Hok, Hb].
  - assert (Hnew : bucket_ok cfgs now k (mkBucket (maxRequests config) now)).
    { exists config. simpl. repeat split; auto; try lra; lia. }
    split; [apply buckets_ok_insert; assumption | exact Hnew].
Qed.

Lemma drainLoop_ok (cfgs : gmap string RateLimitConfig) (now : Z) :
  configs_wf cfgs ->
  forall q bs res q' bs' res' wait,
    buckets_ok cfgs now bs ->
    drainLoop now cfgs q bs res = (q', bs', res', wait) ->
    buckets_ok cfgs now bs'.
Proof.
  intros Hwf. induction q as [|request rest IH];
    intros bs res q' bs' res' wait Hok; cbn [drainLoop].
  - intros [= <- <- <- <-]. exact Hok.
  - destruct (cfgs !! key request) as [config|] eqn:Hk; [| apply IH, Hok].
    destruct (getOrCreateBucket now (key request) config bs) as [bucket bs1] eqn:Hget.
    destruct (getOrCreateBucket_ok cfgs now _ _ _ _ _ Hk (Hwf _ _ Hk) Hok Hget)
      as [Hok1 Hb].
    pose proof (refill_ok cfgs now now _ _ _ Hk (Hwf _ _ Hk) (Z.le_refl now) Hb)
      as Hrefilled.
    destruct (Qle_bool 1 (tokens (refillBucket now bucket config))) eqn:Hone.
    + apply IH. apply buckets_ok_insert; [exact Hok1 |].
      apply consume_ok; assumption.
    + intros [= <- <- <- <-]. apply buckets_ok_insert; assumption.
Qed.

Lemma drain_ok (now : Z) (st : state) :
  configs_wf (configs st) ->
  buckets_ok (configs st) now (buckets st) ->
  configs (drain now st) = configs st /\
  buckets_ok (configs st) now (buckets (drain now st)).
Proof.
  intros Hwf Hok. unfold drain.
  destruct (drainLoop now (configs st) (queue st) (buckets st) (resolved st))
    as [[[q bs] res] wait] eqn:Hloop.
  pose proof (drainLoop_ok _ now Hwf _ _ _ _ _ _ _ Hok Hloop) as Hok'.
  destruct wait; simpl; auto.
Qed.

Lemma processQueue_ok (now : Z) (st : state) :
  configs_wf (configs st) ->
  buckets_ok (configs st) now (buckets st) ->
  configs (processQueue now st) = configs st /\
  buckets_ok (configs st) now (buckets (processQueue now st)).
Proof.
  intros Hwf Hok. unfold processQueue.
  destruct (processingQueue st); [auto |].
  apply (drain_ok now
           (mkState (configs st) (buckets st) (queue st) true (timers st)
              (enqueued st) (resolved st))); assumption.
Qed.

Lemma timerFired_ok (now : Z) (st : state) :
  configs_wf (configs st) ->
  buckets_ok (configs st) now (buckets st) ->
  configs (timerFired now st) = configs st /\
  buckets_ok (configs st) now (buckets (timerFired now st)).
Proof.
  intros Hwf Hok. unfold timerFired.
  destruct (timers st) as [|n]; [auto |].
  apply (drain_ok now
           (mkState (configs st) (buckets st) (queue st) (processingQueue st) n
              (enqueued st) (resolved st))); assumption.
Qed.

Lemma acquire_ok (now : Z) (k : string) (st : state) :
  configs_wf (configs st) ->
  buckets_ok (configs st) now (buckets st) ->
  configs (snd (acquire now k st)) = configs st /\
  buckets_ok (configs st) now (buckets (snd (acquire now k st))).
Proof.
  intros Hwf Hok. unfold acquire.
  destruct (configs st !! k) as [config|] eqn:Hk; [| auto].
  destruct (getOrCreateBucket now k config (buckets st)) as [bucket bs] eqn:Hget.
  destruct (getOrCreateBucket_ok _ now _ _ _ _ _ Hk (Hwf _ _ Hk) Hok Hget)
    as [Hok1 Hb].
  pose proof (refill_ok _ now now _ _ _ Hk (Hwf _ _ Hk) (Z.le_refl now) Hb)
    as Hrefilled.
  destruct (Qle_bool 1 (tokens (refillBucket now bucket config))) eqn:Hone.
  - simpl. split; [reflexivity |].
    apply buckets_ok_insert; [exact Hok1 | apply consume_ok; assumption].
  - assert (Hok2 : buckets_ok (configs st) now
                     (<[k := refillBucket now bucket config]> bs))
      by (apply buckets_ok_insert; assumption).
    destruct (queueRequests config) as [[|]|]; simpl; auto;
      match goal with
      | |- context [processQueue now ?s] =>
          apply (processQueue_ok now s); assumption
      end.
Qed.

Lemma getAvailableTokens_ok (now : Z) (k : string) (st : state) :
  configs_wf (configs st) ->
  buckets_ok (configs st) now (buckets st) ->
  configs (snd (getAvailableTokens now k st)) = configs st /\
  buckets_ok (configs st) now (buckets (snd (getAvailableTokens now k st))).
Proof.
  intros Hwf Hok. unfold getAvailableTokens.
  destruct (configs st !! k) as [config|] eqn:Hk; [| auto].
  destruct (buckets st !! k) as [bucket|] eqn:Hb; [| auto].
  simpl. split; [reflexivity |].
  apply buckets_ok_insert; [exact Hok |].
  apply (refill_ok _ now now);
    [exact Hk | exact (Hwf _ _ Hk) | lia | exact (Hok _ _ Hb)].
Qed.

Lemma step_ok (t now : Z) (op : Op) (st : state) :
  configs_wf (configs st) -> t <= now ->
  buckets_ok (configs st) t (buckets st) ->
  configs (step now op st) = configs st /\
  buckets_ok (configs st) now (buckets (step now op st)).
Proof.
  intros Hwf Ht Hok. apply (buckets_ok_later _ t now _ Ht) in Hok.
  destruct op; simpl.
  - apply acquire_ok; assumption.
  - apply getAvailableTokens_ok; assumption.
  - split; [reflexivity | apply buckets_ok_empty].
  - apply timerFired_ok; assumption.
Qed.

Lemma run_ok (ops : list (Z * Op)) :
  forall t st,
    configs_wf (configs st) -> clock_monotone t ops ->
    buckets_ok (configs st) t (buckets st) ->
    configs (run ops st) = configs st /\
    exists t', buckets_ok (configs st) t' (buckets (run ops st)).
Proof.
  induction ops as [|[now op] ops IH]; intros t st Hwf Hclock Hok; simpl.
  - split; [reflexivity | exists t; exact Hok].
  - destruct Hclock as [Ht Hclock].
    destruct (step_ok t now op st Hwf Ht Hok) as [Hcfg Hok'].
    destruct (IH now (step now op st)) as [Hcfg' (t' & Hok'')];
      rewrite ?Hcfg; auto.
    rewrite Hcfg in *. split; [exact Hcfg' | exists t'; exact Hok''].
Qed.

(** A slot is only taken from a bucket that holds a whole token. *)
Lemma acquire_granted (now : Z) (k : string) (st st' : state) :
  acquire now k st = (Granted, st') ->
  exists before after,
    buckets st' !! k = Some after /\
    (1 <= tokens before)%Q /\ (tokens after == tokens before - 1)%Q /\
    (0 <= tokens after)%Q.
Proof.
  unfold acquire.
  destruct (configs st !! k) as [config|]; [| discriminate].
  destruct (getOrCreateBucket now k config (buckets st)) as [bucket bs].
  destruct (Qle_bool 1 (tokens (refillBucket now bucket config))) eqn:Hone.
  - intros [= <-]. simpl. apply Qle_bool_iff in Hone.
    exists (refillBucket now bucket config), (consume (refillBucket now bucket config)).
    rewrite lookup_insert_eq. unfold consume. cbn [tokens].
    split; [reflexivity |]. split; [exact Hone |].
    split; [reflexivity | lra].
  - destruct (queueRequests config) as [[|]|]; discriminate.
Qed.

(** C6: for well-formed configurations (capacity at least 0, window
    positive) and any history of acquisitions, availability queries, resets
    and drain wake-ups whose clock never goes back, every bucket's count is
    between 0 and the capacity of its key; a refill never yields more than
    the capacity, and an acquisition is granted only from a bucket holding at
    least one token, leaving a count of at least 0. *)
Theorem C6_token_bounds (cfgs : gmap string RateLimitConfig)
  (ops : list (Z * Op)) (t0 : Z) :
  configs_wf cfgs -> clock_monotone t0 ops ->
  (forall k bucket,
     buckets (run ops (create cfgs)) !! k = Some bucket ->
     exists config,
       cfgs !! k = Some config /\
       (0 <= tokens bucket)%Q /\ (tokens bucket <= maxRequests config)%Q) /\
  (forall now bucket config,
     (tokens (refillBucket now bucket config) <= maxRequests config)%Q) /\
  (forall now k st',
     acquire now k (run ops (create cfgs)) = (Granted, st') ->
     exists before after,
       buckets st' !! k = Some after /\
       (1 <= tokens before)%Q /\ (tokens after == tokens before - 1)%Q /\
       (0 <= tokens after)%Q).
Proof.
  intros Hwf Hclock. split; [| split].
  - intros k bucket Hb.
    destruct (run_ok ops t0 (create cfgs) Hwf Hclock (buckets_ok_empty _ _))
      as [_ (t' & Hok)].
    destruct (Hok k bucket Hb) as (config & Hk & H0 & Hcap & _).
    exists config. auto.
  - apply refill_le_capacity.
  - intros now k st'. apply acquire_granted.
Qed.

Lemma test_configs_wf : configs_wf test_configs.
Proof.
  intros k config Hk. unfold test_configs in Hk.
  apply lookup_singleton_Some in Hk as [_ <-].
  split; [apply Qle_bool_iff; reflexivity | reflexivity].
Qed.

Lemma C6_token_bounds_witness :
  exists bucket,
    buckets (run burst_history (create test_configs)) !! "test"%string =
      Some bucket /\
    (0 <= tokens bucket)%Q /\ (tokens bucket <= 2)%Q.
Proof.
  assert (Hclock : clock_monotone 0 burst_history) by (simpl; lia).
  destruct (C6_token_bounds test_configs burst_history 0 test_configs_wf Hclock)
    as [Hbounds _].
  destruct (buckets (run burst_history (create test_configs)) !! "test"%string)
    as [bucket|] eqn:Hb; [| vm_compute in Hb; discriminate].
  exists bucket. split; [reflexivity |].
  destruct (Hbounds "test"%string bucket Hb) as (config & Hk & H0 & Hcap).
  unfold test_configs in Hk.
  apply lookup_singleton_Some in Hk as [_ <-]. split; assumption.
Defined.

Lemma getAvailableTokens_unknown (now : Z) (k : string) (st : state) :
  configs st !! k = None -> getAvailableTokens now k st = (0%Q, st).
Proof. intros Hk. unfold getAvailableTokens. rewrite Hk. reflexivity. Qed.

Lemma getAvailableTokens_fresh (now : Z) (k : string) (st : state)
  (config : RateLimitConfig) :
  configs st !! k = Some config -> buckets st !! k = None ->
  getAvailableTokens now k st = (maxRequests config, st).
Proof. intros Hk Hb. unfold getAvailableTokens. rewrite Hk, Hb. reflexivity. Qed.

Lemma getAvailableTokens_bucket (now : Z) (k : string) (st : state)
  (config : RateLimitConfig) (bucket : TokenBucket) :
  configs st !! k = Some config -> buckets st !! k = Some bucket ->
  getAvailableTokens now k st =
    (inject_Z (Qfloor (tokens (refillBucket now bucket config))),
     mkState (configs st) (<[k := refillBucket now bucket config]> (buckets st))
       (queue st) (processingQueue st) (timers st) (enqueued st) (resolved st)).
Proof. intros Hk Hb. unfold getAvailableTokens. rewrite Hk, Hb. reflexivity. Qed.

(** C9: two consecutive calls of [getAvailableTokens] for one key, the second
    no earlier than the first, never report a smaller number the second
    time.  When the key has a bucket, the first call stores the refilled
    count as it is, reports its floor, and the second call refills from the
    stored count, not from the reported one. *)
Theorem C9_refill_monotone (st : state) (k : string) (t1 t2 : Z) :
  configs_wf (configs st) -> t1 <= t2 ->
  let first := getAvailableTokens t1 k st in
  let second := getAvailableTokens t2 k (snd first) in
  (fst first <= fst second)%Q /\
  (forall config bucket,
     configs st !! k = Some config -> buckets st !! k = Some bucket ->
     let refilled := refillBucket t1 bucket config in
     buckets (snd first) !! k = Some refilled /\
     (tokens refilled ==
        Qmin (maxRequests config)
          (tokens bucket +
           inject_Z (t1 - lastRefill bucket) / windowMs config *
           maxRequests config))%Q /\
     fst first = inject_Z (Qfloor (tokens refilled)) /\
     fst second =
       inject_Z (Qfloor (tokens (refillBucket t2 refilled config)))).
Proof.
  intros Hwf Ht first second. subst first second.
  destruct (configs st !! k) as [config|] eqn:Hk.
  2:{ rewrite (getAvailableTokens_unknown t1 k st Hk). cbn [fst snd].
      rewrite (getAvailableTokens_unknown t2 k st Hk). cbn [fst].
      split; [apply Qle_refl | intros ? ? [=]]. }
  destruct (buckets st !! k) as [bucket|] eqn:Hb.
  2:{ rewrite (getAvailableTokens_fresh t1 k st config Hk Hb). cbn [fst snd].
      rewrite (getAvailableTokens_fresh t2 k st config Hk Hb). cbn [fst].
      split; [apply Qle_refl | intros ? ? _ [=]]. }
  rewrite (getAvailableTokens_bucket t1 k st config bucket Hk Hb).
  cbn [fst snd].
  rewrite (getAvailableTokens_bucket t2 k _ config (refillBucket t1 bucket config));
    [| exact Hk | apply lookup_insert_eq].
  cbn [fst snd buckets]. split.
  - rewrite <- Zle_Qle. apply Qfloor_resp_le.
    apply refill_increases; [exact (Hwf _ _ Hk) | exact Ht |].
    apply refill_le_capacity.
  - intros config' bucket' [= <-] [= <-]. cbn zeta.
    rewrite lookup_insert_eq. repeat split; reflexivity.
Qed.

(** Half a second after the bucket was emptied at time 0, queried at 250 ms
    and again at 500 ms: the reports are 0 and 1, and in between the bucket
    holds half a token. *)
Lemma C9_refill_monotone_witness :
  let first := getAvailableTokens 250 "test" limiter_drained in
  let second := getAvailableTokens 500 "test" (snd first) in
  (fst first <= fst second)%Q /\
  (fst first == 0)%Q /\ (fst second == 1)%Q /\
  exists bucket,
    buckets (snd first) !! "test"%string = Some bucket /\
    (tokens bucket == 1 # 2)%Q.
Proof.
  assert (Ht : 250 <= 500) by lia.
  destruct (C9_refill_monotone limiter_drained "test" 250 500 test_configs_wf Ht)
    as [Hmono _].
  split; [exact Hmono |].
  split; [vm_compute; reflexivity |].
  split; [vm_compute; reflexivity |].
  eexists. split; [vm_compute; reflexivity | vm_compute; reflexivity].
Defined.

End Buckets.

(** ** Wait queue *)
Section WaitQueue.
Import RateLimiter Samples.

(** The loop grants a prefix of the queue, in order. *)
Lemma drainLoop_split (now : Z) (cfgs : gmap string RateLimitConfig) :
  forall q bs res q' bs' res' wait,
    drainLoop now cfgs q bs res = (q', bs', res', wait) ->
    exists granted, res' = res ++ granted /\ q = granted ++ q'.
Proof.
  induction q as [|request rest IH]; intros bs res q' bs' res' wait;
    cbn [drainLoop].
  - intros [= <- <- <- <-]. exists []. rewrite app_nil_r. auto.
  - assert (Hgrant : forall bs0,
              drainLoop now cfgs rest bs0 (res ++ [request]) = (q', bs', res', wait) ->
              exists granted, res' = res ++ granted /\ request :: rest = granted ++ q').
    { intros bs0 Hloop. destruct (IH _ _ _ _ _ _ Hloop) as (granted & -> & ->).
      exists (request :: granted). rewrite <- app_assoc. auto. }
    destruct (cfgs !! key request) as [config|]; [| apply Hgrant].
    destruct (getOrCreateBucket now (key request) config bs) as [bucket bs1].
    destruct (Qle_bool 1 (tokens (refillBucket now bucket config)));
      [apply Hgrant |].
    intros [= <- <- <- <-]. exists []. rewrite app_nil_r. auto.
Qed.

Lemma drain_queue (now : Z) (st : state) :
  configs (drain now st) = configs st /\
  enqueued (drain now st) = enqueued st /\
  exists granted,
    resolved (drain now st) = resolved st ++ granted /\
    queue st = granted ++ queue (drain now st).
Proof.
  unfold drain.
  destruct (drainLoop now (configs st) (queue st) (buckets st) (resolved st))
    as [[[q bs] res] wait] eqn:Hloop.
  destruct (drainLoop_split _ _ _ _ _ _ _ _ _ Hloop) as (granted & Hres & Hq).
  destruct wait; simpl; eauto.
Qed.

Lemma processQueue_queue (now : Z) (st : state) :
  configs (processQueue now st) = configs st /\
  enqueued (processQueue now st) = enqueued st /\
  exists granted,
    resolved (processQueue now st) = resolved st ++ granted /\
    queue st = granted ++ queue (processQueue now st).
Proof.
  unfold processQueue. destruct (processingQueue st).
  - repeat split. exists []. rewrite app_nil_r. auto.
  - apply (drain_queue now
             (mkState (configs st) (buckets st) (queue st) true (timers st)
                (enqueued st) (resolved st))).
Qed.

Lemma timerFired_queue (now : Z) (st : state) :
  configs (timerFired now st) = configs st /\
  enqueued (timerFired now st) = enqueued st /\
  exists granted,
    resolved (timerFired now st) = resolved st ++ granted /\
    queue st = granted ++ queue (timerFired now st).
Proof.
  unfold timerFired. destruct (timers st) as [|n].
  - repeat split. exists []. rewrite app_nil_r. auto.
  - apply (drain_queue now
             (mkState (configs st) (buckets st) (queue st) (processingQueue st)
                n (enqueued st) (resolved st))).
Qed.

(** What one operation does to the queue and to the two logs: it pushes at
    most one request, whose ticket is the number of pushes so far, and grants
    a prefix of the queue; [reset] empties the queue and grants nothing. *)
Lemma step_queue (now : Z) (op : Op) (st : state) :
  configs (step now op st) = configs st /\
  exists granted new,
    enqueued (step now op st) = enqueued st ++ new /\
    resolved (step now op st) = resolved st ++ granted /\
    (new = [] \/ exists k, new = [mkQueued k (length (enqueued st)) now]) /\
    if is_reset op
    then queue (step now op st) = [] /\ granted = []
    else queue st ++ new = granted ++ queue (step now op st).
Proof.
  assert (Hsame : forall st' : state,
            configs st' = configs st -> enqueued st' = enqueued st ->
            resolved st' = resolved st -> queue st' = queue st ->
            configs st' = configs st /\
            exists granted new,
              enqueued st' = enqueued st ++ new /\
              resolved st' = resolved st ++ granted /\
              (new = [] \/ exists k, new = [mkQueued k (length (enqueued st)) now]) /\
              queue st ++ new = granted ++ queue st').
  { intros st' Hc He Hr Hq. split; [exact Hc |]. exists [], [].
    rewrite He, Hr, Hq, !app_nil_r. auto. }
  assert (Hdrain : forall st' : state,
            configs st' = configs st /\ enqueued st' = enqueued st /\
            (exists granted, resolved st' = resolved st ++ granted /\
                             queue st = granted ++ queue st') ->
            configs st' = configs st /\
            exists granted new,
              enqueued st' = enqueued st ++ new /\
              resolved st' = resolved st ++ granted /\
              (new = [] \/ exists k, new = [mkQueued k (length (enqueued st)) now]) /\
              queue st ++ new = granted ++ queue st').
  { intros st' (Hc & He & granted & Hr & Hq). split; [exact Hc |].
    exists granted, []. rewrite He, Hr, !app_nil_r. auto. }
  destruct op; cbn [step is_reset].
  - unfold acquire.
    destruct (configs st !! k) as [config|]; [| apply Hsame; reflexivity].
    destruct (getOrCreateBucket now k config (buckets st)) as [bucket bs].
    destruct (Qle_bool 1 (tokens (refillBucket now bucket config)));
      [apply Hsame; reflexivity |].
    destruct (queueRequests config) as [[|]|]; cbn [snd];
      try (apply Hsame; reflexivity);
      match goal with
      | |- context [processQueue now ?s] =>
          destruct (processQueue_queue now s) as (Hc & He & granted & Hr & Hq);
          cbn [configs enqueued resolved queue] in Hc, He, Hr, Hq;
          (split; [exact Hc |]);
          exists granted, [mkQueued k (length (enqueued st)) now];
          (split; [exact He | split; [exact Hr | split; [| exact Hq]]]);
          right; eexists; reflexivity
      end.
  - unfold getAvailableTokens.
    destruct (configs st !! k) as [config|]; [| apply Hsame; reflexivity].
    destruct (buckets st !! k) as [bucket|]; apply Hsame; reflexivity.
  - split; [reflexivity |]. exists [], []. cbn. rewrite !app_nil_r. auto.
  - apply Hdrain, timerFired_queue.
Qed.

Lemma run_configs (ops : list (Z * Op)) :
  forall st, configs (run ops st) = configs st.
Proof.
  induction ops as [|[now op] ops IH]; intros st; simpl; [reflexivity |].
  rewrite IH. apply step_queue.
Qed.




(** Without [reset], the requests granted so far followed by the requests
    still waiting are the requests pushed so far, in push order: one queue
    for all keys, served from its head. *)
Lemma run_global_fifo (ops : list (Z * Op)) :
  no_reset ops ->
  forall st, resolved st ++ queue st = enqueued st ->
             resolved (run ops st) ++ queue (run ops st) = enqueued (run ops st).
Proof.
  induction 1 as [|[now op] ops Hop Hops IH]; intros st Hinv; simpl; [exact Hinv |].
  apply IH.
  destruct (step_queue now op st) as (_ & granted & new & He & Hr & _ & Hq).
  simpl in Hop. rewrite Hop in Hq.
  rewrite He, Hr, <- Hinv, <- !app_assoc. f_equal. symmetry. exact Hq.
Qed.


Lemma tickets_NoDup (log : list QueuedRequest) :
  tickets_in_order log -> NoDup log.
Proof.
  intros Hord. apply NoDup_alt. intros i j request Hi Hj.
  rewrite <- (Hord i request Hi). apply Hord, Hj.
Qed.













End WaitQueue.

(** Membership in a list written out. *)
Ltac in_list :=
  repeat first [apply list_elem_of_here | apply list_elem_of_further].

(** * Further properties of the rate limiter *)
Section Waiting.
Import RateLimiter RateLimiterAccounting Samples MoreSamples.

Lemma zero_elapsed (config : RateLimitConfig) :
  (inject_Z 0 / windowMs config * maxRequests config == 0)%Q.
Proof. unfold Qdiv. rewrite !Qmult_0_l. reflexivity. Qed.

(** A later clock reading never leaves fewer tokens after the refill. *)
Lemma refill_later (now later : Z) (bucket : TokenBucket)
  (config : RateLimitConfig) :
  (0 < windowMs config)%Q -> (0 <= maxRequests config)%Q -> now <= later ->
  (tokens (refillBucket now bucket config) <=
   tokens (refillBucket later bucket config))%Q.
Proof.
  intros Hw Hcap Hle. unfold refillBucket. cbn [tokens lastRefill].
  apply Q.min_le_compat_l. apply Qplus_le_r.
  apply Qmult_le_compat_r; [| exact Hcap].
  apply Qmult_le_compat_r; [| apply Qlt_le_weak, Qinv_lt_0_compat, Hw].
  rewrite <- Zle_Qle. lia.
Qed.

(** X1: waiting never hurts.  For a key with a positive window and a
    capacity that is not negative, an acquisition that is granted at once at
    some clock reading is also granted at once, from the same state, at any
    later reading.  The wait time computed for a bucket is not negative when
    the bucket holds at most one token, and a bucket that holds more tokens
    never gets a longer wait. *)
Theorem X1_waiting_never_hurts (st : state) (now later : Z) (k : string)
  (config : RateLimitConfig) :
  configs st !! k = Some config ->
  (0 < windowMs config)%Q -> (0 <= maxRequests config)%Q -> now <= later ->
  (fst (acquire now k st) = Granted -> fst (acquire later k st) = Granted) /\
  (forall b1 b2,
     (0 < maxRequests config)%Q -> (tokens b1 <= tokens b2)%Q ->
     (calculateWaitTime b2 config <= calculateWaitTime b1 config)%Q) /\
  (forall b,
     (0 < maxRequests config)%Q -> (tokens b <= 1)%Q ->
     (0 <= calculateWaitTime b config)%Q).
Proof.
  intros Hk Hw Hcap Hle. split; [| split].
  - unfold acquire, getOrCreateBucket. rewrite Hk.
    assert (Hmono : forall b1 b2,
              (tokens (refillBucket now b1 config) <=
               tokens (refillBucket later b2 config))%Q ->
              Qle_bool 1 (tokens (refillBucket now b1 config)) = true ->
              Qle_bool 1 (tokens (refillBucket later b2 config)) = true).
    { intros b1 b2 Hb Hone. apply Qle_bool_iff. apply Qle_bool_iff in Hone.
      eapply Qle_trans; [exact Hone | exact Hb]. }
    destruct (buckets st !! k) as [bucket|].
    + specialize (Hmono bucket bucket (refill_later now later bucket config Hw Hcap Hle)).
      destruct (Qle_bool 1 (tokens (refillBucket now bucket config))).
      * intros _. rewrite (Hmono eq_refl). reflexivity.
      * destruct (queueRequests config) as [[|]|]; discriminate.
    + assert (Hfull : forall t,
                (tokens (refillBucket t (mkBucket (maxRequests config) t) config)
                 == maxRequests config)%Q).
      { intros t. unfold refillBucket. cbn [tokens lastRefill].
        rewrite Z.sub_diag, zero_elapsed, Qplus_0_r. apply Q.min_id. }
      specialize (Hmono (mkBucket (maxRequests config) now)
                        (mkBucket (maxRequests config) later)
                        ltac:(rewrite !Hfull; apply Qle_refl)).
      destruct (Qle_bool 1 (tokens (refillBucket now
                  (mkBucket (maxRequests config) now) config))).
      * intros _. rewrite (Hmono eq_refl). reflexivity.
      * destruct (queueRequests config) as [[|]|]; discriminate.
  - intros b1 b2 Hpos Hb. unfold calculateWaitTime.
    apply Qmult_le_compat_r; [| apply Qlt_le_weak, Hw].
    apply Qmult_le_compat_r; [lra | apply Qlt_le_weak, Qinv_lt_0_compat, Hpos].
  - intros b Hpos Hb. unfold calculateWaitTime.
    apply Qmult_le_0_compat; [| apply Qlt_le_weak, Hw].
    apply Qmult_le_0_compat; [lra | apply Qlt_le_weak, Qinv_lt_0_compat, Hpos].
Qed.

(** X2: head-of-line blocking.  When a drain loop wakes up and the key of
    the request at the head of the queue is configured, with a positive
    window, one of two things happens.  Either the head is granted first, before any other waiter; or
    nobody is granted, whatever the buckets of the other waiters hold: the
    queue and the log of grants are unchanged, the loop sleeps again, and
    the only bucket touched is the head's, which is stamped with the clock
    reading and holds less than one token. *)
Theorem X2_wake_up_serves_head (st : state) (now : Z) (request : QueuedRequest)
  (rest : list QueuedRequest) (config : RateLimitConfig) (n : nat) :
  queue st = request :: rest -> timers st = S n ->
  configs st !! key request = Some config -> (0 < windowMs config)%Q ->
  (exists more,
     resolved (timerFired now st) = resolved st ++ request :: more /\
     rest = more ++ queue (timerFired now st)) \/
  (resolved (timerFired now st) = resolved st /\
   queue (timerFired now st) = queue st /\
   timers (timerFired now st) = S n /\
   exists bucket,
     buckets (timerFired now st) = <[key request := bucket]> (buckets st) /\
     (tokens bucket < 1)%Q /\ lastRefill bucket = now).
Proof.
  intros Hq Ht Hk _.
  unfold timerFired, drain. rewrite Ht. cbn [configs queue buckets resolved].
  rewrite Hq. cbn [drainLoop]. rewrite Hk.
  destruct (getOrCreateBucket now (key request) config (buckets st))
    as [bucket bs1] eqn:Hget.
  destruct (Qle_bool 1 (tokens (refillBucket now bucket config))) eqn:Hgrant.
  - left.
    destruct (drainLoop now (configs st) rest
                (<[key request := consume (refillBucket now bucket config)]> bs1)
                (resolved st ++ [request])) as [[[q' bs'] res'] wait] eqn:Hloop.
    destruct (drainLoop_split _ _ _ _ _ _ _ _ _ Hloop) as (more & Hres & Hrest).
    exists more. destruct wait; cbn [resolved queue];
      rewrite Hres, <- app_assoc; auto.
  - right. cbn [resolved queue timers buckets].
    split; [reflexivity |]. split; [reflexivity |]. split; [reflexivity |].
    exists (refillBucket now bucket config).
    split; [| split; [| reflexivity]].
    + unfold getOrCreateBucket in Hget.
      destruct (buckets st !! key request); injection Hget as <- <-;
        [reflexivity | apply insert_insert_eq].
    + apply Qnot_le_lt. intros Hone. apply Qle_bool_iff in Hone. congruence.
Qed.

(** Read a bucket of a concrete state. *)
Ltac read_bucket st k bucket :=
  let Hb := fresh "Hb" in
  destruct (buckets st !! k) as [bucket|] eqn:Hb;
  [vm_compute in Hb; injection Hb as <- | vm_compute in Hb; discriminate].

Lemma X1_waiting_never_hurts_witness :
  fst (acquire 500 "test" limiter_drained) = Granted /\
  fst (acquire 700 "test" limiter_drained) = Granted.
Proof.
  assert (Hk : configs limiter_drained !! "test"%string =
               Some (mkConfig 2 1000 (Some true))) by reflexivity.
  assert (Hw : (0 < windowMs (mkConfig 2 1000 (Some true)))%Q) by reflexivity.
  assert (Hcap : (0 <= maxRequests (mkConfig 2 1000 (Some true)))%Q)
    by (apply Qle_bool_iff; reflexivity).
  assert (Hle : 500 <= 700) by lia.
  assert (Hfirst : fst (acquire 500 "test" limiter_drained) = Granted)
    by (vm_compute; reflexivity).
  split; [exact Hfirst |].
  exact (proj1 (X1_waiting_never_hurts limiter_drained 500 700 "test" _
                  Hk Hw Hcap Hle) Hfirst).
Defined.

(** At the wake-up half a second after the burst the head is served; at a
    wake-up after 100 ms nobody is. *)
Lemma X2_wake_up_serves_head_witness :
  (exists more,
     resolved (timerFired 500 (run one_waiter_history (create test_configs))) =
       resolved (run one_waiter_history (create test_configs)) ++ waiter_A :: more) /\
  queue (timerFired 100 (run one_waiter_history (create test_configs))) =
    [waiter_A].
Proof.
  set (st := run one_waiter_history (create test_configs)).
  assert (Hq : queue st = [waiter_A]) by (vm_compute; reflexivity).
  assert (Ht : timers st = 1%nat) by (vm_compute; reflexivity).
  assert (Hk : configs st !! key waiter_A =
               Some (mkConfig 2 1000 (Some true))) by reflexivity.
  assert (Hw : (0 < windowMs (mkConfig 2 1000 (Some true)))%Q) by reflexivity.
  split.
  - destruct (X2_wake_up_serves_head st 500 waiter_A [] _ 0 Hq Ht Hk Hw)
      as [(more & Hres & _) | (Hres & _)].
    + exists more. exact Hres.
    + vm_compute in Hres. discriminate.
  - destruct (X2_wake_up_serves_head st 100 waiter_A [] _ 0 Hq Ht Hk Hw)
      as [(more & Hres & _) | (_ & Hqueue & _)].
    + vm_compute in Hres. destruct more; discriminate.
    + rewrite Hqueue. exact Hq.
Defined.

Lemma drainLoop_wait (now : Z) (cfgs : gmap string RateLimitConfig) :
  forall q bs res q' bs' res' wait,
    drainLoop now cfgs q bs res = (q', bs', res', wait) ->
    match wait with
    | Some _ => q' <> []
    | None => q' = []
    end.
Proof.
  induction q as [|request rest IH]; intros bs res q' bs' res' wait;
    cbn [drainLoop].
  - intros [= <- <- <- <-]. reflexivity.
  - destruct (cfgs !! key request) as [config|]; [| apply IH].
    destruct (getOrCreateBucket now (key request) config bs) as [bucket bs1].
    destruct (Qle_bool 1 (tokens (refillBucket now bucket config)));
      [apply IH |].
    intros [= <- <- <- <-]. discriminate.
Qed.

(** A drain that starts from its loop head with the flag set and no other
    loop suspended ends in step with its flag. *)
Lemma drain_single (now : Z) (st : state) :
  processingQueue st = true -> timers st = O -> single_drain (drain now st).
Proof.
  intros Hflag Ht. unfold drain.
  destruct (drainLoop now (configs st) (queue st) (buckets st) (resolved st))
    as [[[q bs] res] wait] eqn:Hloop.
  apply drainLoop_wait in Hloop.
  destruct wait; unfold single_drain; cbn [timers processingQueue queue].
  - rewrite Hflag, Ht. split; [reflexivity | discriminate].
  - split; [exact Ht | intros _; exact Hloop].
Qed.

Lemma processQueue_single (now : Z) (st : state) :
  timers st = (if processingQueue st then 1%nat else 0%nat) ->
  single_drain (processQueue now st).
Proof.
  intros Ht. unfold processQueue.
  destruct (processingQueue st) eqn:Hflag.
  - split; rewrite Hflag; [exact Ht | discriminate].
  - apply drain_single; [reflexivity | exact Ht].
Qed.

Lemma step_single_drain (now : Z) (op : Op) (st : state) :
  is_reset op = false -> single_drain st -> single_drain (step now op st).
Proof.
  intros Hop [Ht Hq]. destruct op; cbn [step]; try discriminate.
  - unfold acquire.
    destruct (configs st !! k) as [config|]; [| split; assumption].
    destruct (getOrCreateBucket now k config (buckets st)) as [bucket bs].
    destruct (Qle_bool 1 (tokens (refillBucket now bucket config)));
      [split; assumption |].
    destruct (queueRequests config) as [[|]|]; cbn [snd];
      try (split; assumption);
      apply processQueue_single; exact Ht.
  - unfold getAvailableTokens.
    destruct (configs st !! k) as [config|]; [| split; assumption].
    destruct (buckets st !! k) as [bucket|]; split; assumption.
  - unfold timerFired. destruct (timers st) as [|n] eqn:Hn.
    + unfold single_drain. rewrite Hn. split; assumption.
    + destruct (processingQueue st) eqn:Hflag; [| discriminate].
      injection Ht as ->. apply drain_single; reflexivity.
Qed.

(** X3: in a history without [reset()] the drain loop is single-flight and
    never leaves a waiter behind: at most one loop is suspended on a timer,
    one is suspended exactly when [processingQueue] is set, and whenever
    somebody waits in the queue the flag is set and a timer is pending. *)
Theorem X3_single_drain_loop (cfgs : gmap string RateLimitConfig)
  (ops : list (Z * Op)) :
  no_reset ops ->
  (timers (run ops (create cfgs)) <= 1)%nat /\
  (timers (run ops (create cfgs)) = 1%nat <->
   processingQueue (run ops (create cfgs)) = true) /\
  (queue (run ops (create cfgs)) <> [] ->
   processingQueue (run ops (create cfgs)) = true /\
   timers (run ops (create cfgs)) = 1%nat).
Proof.
  intros Hnr.
  assert (Hinv : single_drain (run ops (create cfgs))).
  { assert (Hinit : single_drain (create cfgs)) by (split; reflexivity).
    revert Hinit. generalize (create cfgs).
    induction Hnr as [|[now op] ops Hop Hops IH]; intros st Hst; simpl; [exact Hst |].
    apply IH, step_single_drain; assumption. }
  destruct Hinv as [Ht Hq].
  set (st := run ops (create cfgs)) in *.
  destruct (processingQueue st) eqn:Hflag; rewrite Ht.
  - split; [lia |]. split; [tauto |]. auto.
  - split; [lia |]. split; [split; discriminate |].
    intros Hne. exfalso. apply Hne, Hq. reflexivity.
Qed.

Lemma X3_single_drain_loop_witness :
  timers (run two_waiters_history (create test_configs)) = 0%nat /\
  (timers (run one_waiter_history (create test_configs)) <= 1)%nat.
Proof.
  assert (H2 : no_reset two_waiters_history) by (repeat constructor).
  assert (H1 : no_reset one_waiter_history) by (repeat constructor).
  destruct (X3_single_drain_loop test_configs two_waiters_history H2)
    as (_ & Hflag & _).
  destruct (X3_single_drain_loop test_configs one_waiter_history H1)
    as (Hle & _).
  split; [| exact Hle].
  destruct (timers (run two_waiters_history (create test_configs))) as [|[|n]] eqn:Ht;
    [reflexivity | | vm_compute in Ht; discriminate].
  pose proof (proj1 Hflag eq_refl) as Hbad. vm_compute in Hbad. discriminate.
Defined.

(** X4: the first acquisition for a key that has no bucket yet (a new
    limiter, or any limiter just after [reset()]) is granted at once when the
    capacity is at least 1, and leaves a bucket holding the capacity minus
    one; a key whose capacity is below 1 is never granted at once, in any
    state. *)
Theorem X4_first_acquire (st : state) (now : Z) (k : string)
  (config : RateLimitConfig) :
  configs st !! k = Some config -> (0 < windowMs config)%Q ->
  ((1 <= maxRequests config)%Q ->
   (buckets st !! k = None ->
    fst (acquire now k st) = Granted /\
    exists bucket,
      buckets (snd (acquire now k st)) !! k = Some bucket /\
      (tokens bucket == maxRequests config - 1)%Q /\
      lastRefill bucket = now) /\
   fst (acquire now k (reset st)) = Granted) /\
  ((maxRequests config < 1)%Q -> fst (acquire now k st) <> Granted).
Proof.
  intros Hk Hw.
  assert (Hfresh : (tokens (refillBucket now (mkBucket (maxRequests config) now) config)
                    == maxRequests config)%Q).
  { unfold refillBucket. cbn [tokens lastRefill]. rewrite Z.sub_diag.
    rewrite zero_elapsed, Qplus_0_r. apply Q.min_id. }
  assert (Hnew : forall st0 : state,
            configs st0 !! k = Some config -> buckets st0 !! k = None ->
            (1 <= maxRequests config)%Q ->
            fst (acquire now k st0) = Granted /\
            exists bucket,
              buckets (snd (acquire now k st0)) !! k = Some bucket /\
              (tokens bucket == maxRequests config - 1)%Q /\
              lastRefill bucket = now).
  { intros st0 Hk0 Hb0 Hcap. unfold acquire, getOrCreateBucket. rewrite Hk0, Hb0.
    assert (Hone : Qle_bool 1
              (tokens (refillBucket now (mkBucket (maxRequests config) now) config))
            = true) by (apply Qle_bool_iff; rewrite Hfresh; exact Hcap).
    rewrite Hone. cbn [fst snd buckets]. split; [reflexivity |].
    eexists. rewrite lookup_insert_eq. split; [reflexivity |].
    unfold consume. cbn [tokens lastRefill]. split; [| reflexivity].
    rewrite Hfresh. reflexivity. }
  split.
  - intros Hcap. split; [intros Hb; apply Hnew; assumption |].
    apply Hnew; [exact Hk | apply lookup_empty | exact Hcap].
  - intros Hsmall. unfold acquire. rewrite Hk.
    destruct (getOrCreateBucket now k config (buckets st)) as [bucket bs].
    destruct (Qle_bool 1 (tokens (refillBucket now bucket config))) eqn:Hone.
    + apply Qle_bool_iff in Hone.
      pose proof (refill_le_capacity now bucket config). lra.
    + destruct (queueRequests config) as [[|]|]; simpl; discriminate.
Qed.

Lemma X4_first_acquire_witness :
  fst (acquire 0 "test" (create test_configs)) = Granted /\
  fst (acquire 0 "test" (reset limiter_drained)) = Granted.
Proof.
  assert (Hw : (0 < windowMs (mkConfig 2 1000 (Some true)))%Q) by reflexivity.
  assert (Hcap : (1 <= maxRequests (mkConfig 2 1000 (Some true)))%Q)
    by (apply Qle_bool_iff; reflexivity).
  split.
  - destruct (X4_first_acquire (create test_configs) 0 "test"
                (mkConfig 2 1000 (Some true)) eq_refl Hw) as [Hbig _].
    destruct (Hbig Hcap) as [Hnew _].
    destruct (Hnew eq_refl) as [Hgranted _]. exact Hgranted.
  - destruct (X4_first_acquire limiter_drained 0 "test"
                (mkConfig 2 1000 (Some true)) eq_refl Hw) as [Hbig _].
    destruct (Hbig Hcap) as [_ Hreset]. exact Hreset.
Defined.

Lemma getOrCreateBucket_other (now : Z) (k k' : string) (config : RateLimitConfig)
  (bs : gmap string TokenBucket) :
  k' <> k -> snd (getOrCreateBucket now k' config bs) !! k = bs !! k.
Proof.
  intros Hne. unfold getOrCreateBucket.
  destruct (bs !! k'); cbn [snd]; [reflexivity |].
  apply lookup_insert_ne, Hne.
Qed.

(** The loop touches no bucket of a key without configuration. *)
Lemma drainLoop_unconfigured (now : Z) (cfgs : gmap string RateLimitConfig)
  (k : string) :
  cfgs !! k = None ->
  forall q bs res q' bs' res' wait,
    drainLoop now cfgs q bs res = (q', bs', res', wait) ->
    bs' !! k = bs !! k.
Proof.
  intros Hk. induction q as [|request rest IH]; intros bs res q' bs' res' wait;
    cbn [drainLoop].
  - intros [= <- <- <- <-]. reflexivity.
  - destruct (cfgs !! key request) as [config|] eqn:Hr; [| apply IH].
    assert (Hne : key request <> k) by congruence.
    pose proof (getOrCreateBucket_other now k (key request) config bs Hne) as Hsame.
    destruct (getOrCreateBucket now (key request) config bs) as [bucket bs1].
    cbn [snd] in Hsame.
    destruct (Qle_bool 1 (tokens (refillBucket now bucket config))).
    + intros Hloop. rewrite (IH _ _ _ _ _ _ Hloop).
      rewrite lookup_insert_ne by exact Hne. exact Hsame.
    + intros [= <- <- <- <-]. rewrite lookup_insert_ne by exact Hne. exact Hsame.
Qed.

Lemma step_unconfigured (now : Z) (op : Op) (st : state) (k : string) :
  configs st !! k = None -> buckets st !! k = None ->
  buckets (step now op st) !! k = None.
Proof.
  intros Hk Hb.
  assert (Hdrain : forall st0 : state,
            configs st0 !! k = None -> buckets st0 !! k = None ->
            buckets (drain now st0) !! k = None).
  { intros st0 Hk0 Hb0. unfold drain.
    destruct (drainLoop now (configs st0) (queue st0) (buckets st0) (resolved st0))
      as [[[q bs] res] wait] eqn:Hloop.
    apply (drainLoop_unconfigured now _ k Hk0) in Hloop.
    destruct wait; cbn [buckets]; congruence. }
  destruct op; cbn [step].
  - unfold acquire. destruct (configs st !! k0) as [config|] eqn:Hk0; [| exact Hb].
    assert (Hne : k0 <> k) by congruence.
    pose proof (getOrCreateBucket_other now k k0 config (buckets st) Hne) as Hsame.
    destruct (getOrCreateBucket now k0 config (buckets st)) as [bucket bs].
    cbn [snd] in Hsame.
    destruct (Qle_bool 1 (tokens (refillBucket now bucket config))).
    + cbn [snd buckets]. rewrite lookup_insert_ne by exact Hne. congruence.
    + destruct (queueRequests config) as [[|]|]; cbn [snd buckets];
        try (rewrite lookup_insert_ne by exact Hne; congruence);
        unfold processQueue; cbn [processingQueue];
        destruct (processingQueue st); cbn [buckets];
        try (rewrite lookup_insert_ne by exact Hne; congruence);
        apply Hdrain; cbn [configs buckets];
        [exact Hk | rewrite lookup_insert_ne by exact Hne; congruence
        | exact Hk | rewrite lookup_insert_ne by exact Hne; congruence].
  - unfold getAvailableTokens.
    destruct (configs st !! k0) as [config|] eqn:Hk0; [| exact Hb].
    destruct (buckets st !! k0) as [bucket|]; [| exact Hb].
    cbn [snd buckets]. rewrite lookup_insert_ne by congruence. exact Hb.
  - apply lookup_empty.
  - unfold timerFired. destruct (timers st); [exact Hb |].
    apply Hdrain; assumption.
Qed.

(** X5: a key without configuration is outside the limiter for good.  After
    any history, [getAvailableTokens] answers 0 for it, [acquire] rejects it
    with the plain configuration error (not an [SPAPIError]), neither call
    changes the limiter, and no bucket exists for the key. *)
Theorem X5_unknown_key (cfgs : gmap string RateLimitConfig)
  (ops : list (Z * Op)) (now : Z) (k : string) :
  cfgs !! k = None ->
  getAvailableTokens now k (run ops (create cfgs)) =
    (0%Q, run ops (create cfgs)) /\
  acquire now k (run ops (create cfgs)) =
    (Rejected (Errors.newError
       ("No rate limit configuration found for key: " +:+ k)),
     run ops (create cfgs)) /\
  Errors.instanceof
    (Errors.newError ("No rate limit configuration found for key: " +:+ k))
    Errors.SPAPIError = false /\
  buckets (run ops (create cfgs)) !! k = None.
Proof.
  intros Hk.
  assert (Hcfg : configs (run ops (create cfgs)) !! k = None)
    by (rewrite run_configs; exact Hk).
  split; [apply getAvailableTokens_unknown, Hcfg |].
  split; [unfold acquire; rewrite Hcfg; reflexivity |].
  split; [reflexivity |].
  assert (Hgen : forall st : state,
            configs st !! k = None -> buckets st !! k = None ->
            buckets (run ops st) !! k = None).
  { clear Hcfg.
    induction ops as [|[t op] ops IH]; intros st Hc Hb; simpl; [exact Hb |].
    apply IH; [| apply step_unconfigured; assumption].
    destruct (step_queue t op st) as [-> _]. exact Hc. }
  apply Hgen; [exact Hk | apply lookup_empty].
Qed.

Lemma X5_unknown_key_witness :
  fst (getAvailableTokens 700 "orders" (run burst_history (create test_configs)))
    = 0%Q /\
  buckets (run burst_history (create test_configs)) !! "orders"%string = None.
Proof.
  assert (Hk : test_configs !! "orders"%string = None) by reflexivity.
  destruct (X5_unknown_key test_configs burst_history 700 "orders" Hk)
    as (Htok & _ & _ & Hb).
  rewrite Htok. split; [reflexivity | exact Hb].
Defined.

(** With queueing disabled, [acquire] either grants or rejects, and touches
    nothing but the buckets. *)
Lemma acquire_queueing_disabled (now : Z) (k : string) (st : state) :
  queueing_disabled (configs st) ->
  (forall request, fst (acquire now k st) <> Pending request) /\
  configs (snd (acquire now k st)) = configs st /\
  queue (snd (acquire now k st)) = queue st /\
  enqueued (snd (acquire now k st)) = enqueued st /\
  resolved (snd (acquire now k st)) = resolved st /\
  timers (snd (acquire now k st)) = timers st /\
  processingQueue (snd (acquire now k st)) = processingQueue st.
Proof.
  intros Hoff. unfold acquire.
  destruct (configs st !! k) as [config|] eqn:Hk;
    [| repeat split; discriminate].
  destruct (getOrCreateBucket now k config (buckets st)) as [bucket bs].
  destruct (Qle_bool 1 (tokens (refillBucket now bucket config)));
    [repeat split; discriminate |].
  rewrite (Hoff k config Hk). repeat split; discriminate.
Qed.

(** X6: when every configured key has [queueRequests: false] the limiter
    never suspends a caller.  After any history the wait queue is empty, no
    request was ever pushed or resolved, no drain loop was started, and
    [acquire] answers at once: granted, or rejected with an error. *)
Theorem X6_queueing_disabled (cfgs : gmap string RateLimitConfig)
  (ops : list (Z * Op)) :
  queueing_disabled cfgs ->
  queue (run ops (create cfgs)) = [] /\
  enqueued (run ops (create cfgs)) = [] /\
  resolved (run ops (create cfgs)) = [] /\
  timers (run ops (create cfgs)) = O /\
  processingQueue (run ops (create cfgs)) = false /\
  (forall now k request,
     fst (acquire now k (run ops (create cfgs))) <> Pending request).
Proof.
  intros Hoff.
  assert (Hgen : forall st : state,
            queueing_disabled (configs st) ->
            queue st = [] -> enqueued st = [] -> resolved st = [] ->
            timers st = O -> processingQueue st = false ->
            queueing_disabled (configs (run ops st)) /\
            queue (run ops st) = [] /\ enqueued (run ops st) = [] /\
            resolved (run ops st) = [] /\ timers (run ops st) = O /\
            processingQueue (run ops st) = false).
  { induction ops as [|[t op] ops IH]; intros st Hc Hq He Hr Ht Hp; simpl;
      [auto 10 |].
    assert (Hstep : configs (step t op st) = configs st /\
                    queue (step t op st) = [] /\ enqueued (step t op st) = [] /\
                    resolved (step t op st) = [] /\ timers (step t op st) = O /\
                    processingQueue (step t op st) = false).
    { destruct op; cbn [step].
      - destruct (acquire_queueing_disabled t k st Hc)
          as (_ & -> & -> & -> & -> & -> & ->). auto 10.
      - unfold getAvailableTokens.
        destruct (configs st !! k); [| auto 10].
        destruct (buckets st !! k); cbn [snd]; auto 10.
      - cbn. auto 10.
      - unfold timerFired. rewrite Ht. auto 10. }
    destruct Hstep as (Hc' & Hq' & He' & Hr' & Ht' & Hp').
    apply IH; try assumption. rewrite Hc'. exact Hc. }
  destruct (Hgen (create cfgs) Hoff eq_refl eq_refl eq_refl eq_refl eq_refl)
    as (Hc & Hq & He & Hr & Ht & Hp).
  repeat (split; [assumption |]).
  intros now k request. apply acquire_queueing_disabled, Hc.
Qed.

Lemma strict_configs_disabled : queueing_disabled strict_configs.
Proof.
  intros k config Hk. unfold strict_configs in Hk.
  apply lookup_singleton_Some in Hk as [_ <-]. reflexivity.
Qed.

Lemma X6_queueing_disabled_witness :
  queue (run strict_history (create strict_configs)) = [] /\
  timers (run strict_history (create strict_configs)) = O /\
  fst (acquire 300 "strict" (run strict_history (create strict_configs))) =
    Rejected (Errors.newError
                "Rate limit exceeded for strict. Wait 1s before retrying.").
Proof.
  destruct (X6_queueing_disabled strict_configs strict_history
              strict_configs_disabled) as (Hq & _ & _ & Ht & _ & Hnp).
  split; [exact Hq |]. split; [exact Ht |].
  vm_compute. reflexivity.
Defined.























(** X22: the default limits shipped with the limiter.  They configure
    exactly the keys orders, inventory, reports, products and default; each
    has a capacity of at least 1, a positive window and queueing on, so they
    are well-formed.  Hence, on a limiter built from them, [acquire] never
    rejects one of these keys in any state reached (the key "default" that
    the client uses when none is given included), and the first acquisition
    for each of them is granted at once. *)
Theorem X22_default_limits (ops : list (Z * Op)) (now : Z) (k : string) :
  k ∈ ["orders"; "inventory"; "reports"; "products"; "default"]%string ->
  (exists config : RateLimitConfig,
     DEFAULT_RATE_LIMITS !! k = Some config /\
     (1 <= maxRequests config)%Q /\ (0 < windowMs config)%Q /\
     queueRequests config = Some true) /\
  configs_wf DEFAULT_RATE_LIMITS /\
  (forall k', is_Some (DEFAULT_RATE_LIMITS !! k') ->
     k' ∈ ["orders"; "inventory"; "reports"; "products"; "default"]%string) /\
  (forall e,
     fst (acquire now k (run ops (create DEFAULT_RATE_LIMITS))) <> Rejected e) /\
  fst (acquire now k (create DEFAULT_RATE_LIMITS)) = Granted.
Proof.
  intros Hin.
  assert (Hall : forall k' config,
            DEFAULT_RATE_LIMITS !! k' = Some config ->
            k' ∈ ["orders"; "inventory"; "reports"; "products"; "default"]%string /\
            (1 <= maxRequests config)%Q /\ (0 < windowMs config)%Q /\
            queueRequests config = Some true).
  { intros k' config Hk. unfold DEFAULT_RATE_LIMITS in Hk.
    apply elem_of_list_to_map_2 in Hk.
    repeat (apply elem_of_cons in Hk as [[= -> ->] | Hk];
            [split; [in_list |];
             split; [apply Qle_bool_iff; reflexivity |];
             split; reflexivity |]).
    apply elem_of_nil in Hk. contradiction. }
  assert (Hq : exists config : RateLimitConfig,
            DEFAULT_RATE_LIMITS !! k = Some config).
  { repeat (apply elem_of_cons in Hin as [-> | Hin]; [eexists; reflexivity |]).
    apply elem_of_nil in Hin. contradiction. }
  destruct Hq as (config & Hk).
  destruct (Hall k config Hk) as (_ & Hcap & Hw & Hqueue).
  split; [exists config; auto |].
  split.
  { intros k' config' Hk'. destruct (Hall k' config' Hk') as (_ & Hc & Hw' & _).
    split; [lra | exact Hw']. }
  split; [intros k' [config' Hk']; apply (Hall k' config' Hk') |].
  split.
  - intros e. unfold acquire. rewrite run_configs. cbn [configs create].
    rewrite Hk.
    destruct (getOrCreateBucket now k config _) as [bucket bs].
    destruct (Qle_bool 1 (tokens (refillBucket now bucket config)));
      [discriminate |].
    rewrite Hqueue. discriminate.
  - unfold acquire, getOrCreateBucket. cbn [configs buckets create].
    rewrite Hk, lookup_empty.
    assert (Hone : Qle_bool 1
              (tokens (refillBucket now (mkBucket (maxRequests config) now) config))
            = true).
    { apply Qle_bool_iff. unfold refillBucket. cbn [tokens lastRefill].
      rewrite Z.sub_diag, zero_elapsed, Qplus_0_r, Q.min_id. exact Hcap. }
    rewrite Hone. reflexivity.
Qed.

Lemma X22_default_limits_witness :
  fst (acquire 0 "default" (create DEFAULT_RATE_LIMITS)) = Granted.
Proof.
  assert (Hin : "default"%string ∈
                ["orders"; "inventory"; "reports"; "products"; "default"]%string)
    by in_list.
  destruct (X22_default_limits [] 0 "default" Hin) as (_ & _ & _ & _ & Hgranted).
  exact Hgranted.
Defined.

End Waiting.

(** * Further properties of the token manager *)
Section TokenCacheMore.
Import TokenManager TokenManagerRuns Samples MoreSamples.

Lemma getAccessToken_stale (now : Z) (net : HttpPost -> PostOutcome) (st : state) :
  hasCachedToken now st = false ->
  getAccessToken now net st = refreshAccessToken net st.
Proof.
  unfold getAccessToken, hasCachedToken.
  destruct (cachedToken st) as [token|]; [| reflexivity].
  intros ->. reflexivity.
Qed.

Lemma getAccessToken_valid (now : Z) (net : HttpPost -> PostOutcome) (st : state) :
  hasCachedToken now st = true ->
  exists token,
    cachedToken st = Some token /\
    getAccessToken now net st = (inr (accessToken token), st, []).
Proof.
  unfold getAccessToken, hasCachedToken.
  destruct (cachedToken st) as [token|]; [| discriminate].
  intros ->. eauto.
Qed.

(** X8: a successful refresh is remembered until five minutes before the
    token expires.  When a refresh is needed and the endpoint replies with a
    token and [expires_in] (the clock reading [now_after] at the reply), the
    call returns that token and caches it with expiry
    [now_after + expires_in * 1000]; every later call made more than five
    minutes before that expiry returns the same token without any HTTP call
    and without changing the state, and every call made later than that
    issues a new refresh.  In particular a token with [expires_in] of 300
    seconds or less is never served from the cache once the clock has
    reached [now_after]. *)
Theorem X8_refresh_then_reuse (now : Z) (net : HttpPost -> PostOutcome)
  (st : state) (token : string) (expires_in now_after : Z) :
  hasCachedToken now st = false ->
  (forall call, net call = Replied token expires_in now_after) ->
  exists st' call,
    getAccessToken now net st = (inr token, st', [call]) /\
    cachedToken st' = Some (mkCached token (now_after + expires_in * 1000)) /\
    credentials st' = credentials st /\
    (forall later net',
       later + 5 * 60 * 1000 < now_after + expires_in * 1000 ->
       getAccessToken later net' st' = (inr token, st', [])) /\
    (forall later net',
       now_after + expires_in * 1000 <= later + 5 * 60 * 1000 ->
       exists result st'' call',
         getAccessToken later net' st' = (result, st'', [call'])) /\
    (expires_in <= 300 ->
     forall later net',
       now_after <= later ->
       exists result st'' call',
         getAccessToken later net' st' = (result, st'', [call'])).
Proof.
  intros Hstale Hnet. rewrite (getAccessToken_stale now net st Hstale).
  unfold refreshAccessToken. rewrite Hnet.
  eexists _, _. split; [reflexivity |].
  split; [reflexivity |]. split; [reflexivity |].
  assert (Hagain : forall later net',
            now_after + expires_in * 1000 <= later + 5 * 60 * 1000 ->
            exists result st'' call',
              getAccessToken later net'
                (mkState (credentials st)
                   (Some (mkCached token (now_after + expires_in * 1000)))) =
                (result, st'', [call'])).
  { intros later net' Hlate.
    rewrite getAccessToken_stale.
    - destruct (refreshAccessToken_one_call net'
                  (mkState (credentials st)
                     (Some (mkCached token (now_after + expires_in * 1000)))))
        as (result & st'' & call' & Hrun & _).
      eauto.
    - unfold hasCachedToken, isTokenValid. cbn [cachedToken expiresAt].
      apply Z.ltb_ge. lia. }
  split; [| split].
  - intros later net' Hearly. unfold getAccessToken, isTokenValid.
    cbn [cachedToken expiresAt accessToken].
    destruct (Z.ltb_spec (later + 5 * 60 * 1000) (now_after + expires_in * 1000));
      [reflexivity | lia].
  - exact Hagain.
  - intros Hshort later net' Hlater. apply Hagain. lia.
Qed.

Lemma X8_refresh_then_reuse_witness :
  exists st',
    fst (fst (getAccessToken 1000000 lwa_issues_token manager_expiring)) =
      inr "Atza|new"%string /\
    snd (fst (getAccessToken 1000000 lwa_issues_token manager_expiring)) = st' /\
    getAccessToken (1000050 + 3000 * 1000) lwa_rejects st' =
      (inr "Atza|new"%string, st', []).
Proof.
  destruct (X8_refresh_then_reuse 1000000 lwa_issues_token manager_expiring
              "Atza|new" 3600 1000050) as (st' & call & Hrun & _ & _ & Hreuse & _).
  - vm_compute. reflexivity.
  - intros call. reflexivity.
  - exists st'. rewrite Hrun. split; [reflexivity |]. split; [reflexivity |].
    apply Hreuse. vm_compute. reflexivity.
Defined.

(** X9: [hasCachedToken()] tells whether the next [getAccessToken()] goes to
    the network.  At the same clock reading, it is true exactly when
    [getAccessToken()] issues no HTTP call (and then the state is unchanged
    and the cached value is returned); it is false exactly when one POST is
    issued.  After [clearCache()] it is false whatever was cached, and the
    credentials are kept. *)
Theorem X9_hasCachedToken_predicts (now : Z) (net : HttpPost -> PostOutcome)
  (st : state) :
  (hasCachedToken now st = true <->
   snd (getAccessToken now net st) = []) /\
  (hasCachedToken now st = true ->
   exists token,
     cachedToken st = Some token /\
     getAccessToken now net st = (inr (accessToken token), st, [])) /\
  (hasCachedToken now st = false <->
   exists call, snd (getAccessToken now net st) = [call]) /\
  hasCachedToken now (clearCache st) = false /\
  credentials (clearCache st) = credentials st.
Proof.
  assert (Hone : hasCachedToken now st = false ->
                 exists call, snd (getAccessToken now net st) = [call]).
  { intros Hstale. rewrite (getAccessToken_stale now net st Hstale).
    destruct (refreshAccessToken_one_call net st) as (r & st' & call & -> & _).
    eauto. }
  assert (Hnone : hasCachedToken now st = true ->
                  snd (getAccessToken now net st) = []).
  { intros Hvalid.
    destruct (getAccessToken_valid now net st Hvalid) as (token & _ & ->).
    reflexivity. }
  split; [| split; [apply getAccessToken_valid | split; [| split; reflexivity]]].
  - split; [exact Hnone |]. intros Hcalls.
    destruct (hasCachedToken now st) eqn:Hc; [reflexivity |].
    destruct (Hone eq_refl) as [call Hcall]. congruence.
  - split; [exact Hone |]. intros [call Hcall].
    destruct (hasCachedToken now st) eqn:Hc; [| reflexivity].
    rewrite (Hnone eq_refl) in Hcall. discriminate.
Qed.

(** During an outage every call pays a round trip. *)
Lemma getAccessTokenAt_outage (err : AxiosError) (net : HttpPost -> PostOutcome)
  (st : state) :
  (forall call, net call = AxiosFailed err) ->
  forall nows t,
    ascending t nows -> hasCachedToken t st = false ->
    snd (fst (getAccessTokenAt nows net st)) = st /\
    length (snd (getAccessTokenAt nows net st)) = length nows /\
    Forall (fun result => exists e, result = inl e)
      (fst (fst (getAccessTokenAt nows net st))).
Proof.
  intros Hnet. induction nows as [|now rest IH]; intros t Hasc Hstale;
    cbn [getAccessTokenAt].
  - repeat split. constructor.
  - destruct Hasc as [Ht Hasc].
    assert (Hstale' : hasCachedToken now st = false).
    { revert Hstale. unfold hasCachedToken, isTokenValid.
      destruct (cachedToken st) as [token|]; [| reflexivity].
      rewrite !Z.ltb_ge. lia. }
    rewrite (getAccessToken_stale now net st Hstale').
    unfold refreshAccessToken. rewrite Hnet.
    destruct (IH now Hasc Hstale') as (Hst & Hlen & Hres).
    destruct (getAccessTokenAt rest net st) as [[results st2] calls2].
    cbn [fst snd] in *. split; [exact Hst |].
    split; [simpl; lia |]. constructor; [eauto | exact Hres].
Qed.

(** X10: failures are not cached and there is no back-off in the token
    manager.  If a refresh is needed and the auth endpoint keeps failing,
    then however many times [getAccessToken()] is called afterwards (the
    clock not going back) every call fails, every call issues its own HTTP
    request, and the state never changes. *)
Theorem X10_outage_one_call_each (err : AxiosError)
  (net : HttpPost -> PostOutcome) (st : state) (t : Z) (nows : list Z) :
  (forall call, net call = AxiosFailed err) ->
  ascending t nows -> hasCachedToken t st = false ->
  snd (fst (getAccessTokenAt nows net st)) = st /\
  length (snd (getAccessTokenAt nows net st)) = length nows /\
  Forall (fun result => exists e, result = inl e)
    (fst (fst (getAccessTokenAt nows net st))).
Proof. intros Hnet Hasc Hstale. apply (getAccessTokenAt_outage err net st Hnet nows t); assumption. Qed.

Lemma X10_outage_one_call_each_witness :
  length (snd (getAccessTokenAt [1000000; 1000001; 1000002] lwa_rejects
                 manager_expiring)) = 3%nat.
Proof.
  destruct (X10_outage_one_call_each lwa_invalid_grant lwa_rejects
              manager_expiring 1000000 [1000000; 1000001; 1000002])
    as (_ & Hlen & _).
  - intros call. reflexivity.
  - simpl. lia.
  - vm_compute. reflexivity.
  - exact Hlen.
Defined.

End TokenCacheMore.

(** * Credentials and the configuration singleton *)
Section Environment.
Import Credentials Samples MoreSamples.

Lemma truthy_string_false (s : string) :
  truthy_string s = false <-> s = ""%string.
Proof. destruct s; simpl; split; congruence. Qed.

Lemma push_unless_app (value msg : string) (errors : list string) :
  push_unless value msg errors =
    errors ++ (if bool_decide (value = ""%string) then [msg] else []).
Proof.
  unfold push_unless. destruct value; simpl; [reflexivity |].
  rewrite app_nil_r. reflexivity.
Qed.

Lemma filter_missing_cons (env : gmap string string) (name : string)
  (names : list string) :
  filter (missing env) (name :: names) =
    (if bool_decide (env_or env name "" = ""%string) then [name] else []) ++
    filter (missing env) names.
Proof.
  rewrite filter_cons. unfold missing at 1.
  destruct (decide (env_or env name "" = ""%string)) as [H | H].
  - rewrite (bool_decide_eq_true_2 _ H). reflexivity.
  - rewrite (bool_decide_eq_false_2 _ H). reflexivity.
Qed.

(** The errors collected by [validate] are the required variables that are
    missing, in the order of the checks. *)
Lemma validation_errors_missing (env : gmap string string) :
  validation_errors (loadFromEnvironment env) =
    map (fun name => name +:+ " is required")
      (filter (missing env) required_variables).
Proof.
  unfold validation_errors, loadFromEnvironment, required_variables.
  cbn [aws lwa config accessKeyId secretAccessKey sellerId marketplaceId
       TokenManager.clientId TokenManager.clientSecret TokenManager.refreshToken].
  rewrite !push_unless_app, !filter_missing_cons, filter_nil.
  repeat match goal with
    | |- context [bool_decide ?P] => destruct (bool_decide P)
    end; reflexivity.
Qed.

Lemma filter_missing_nil (env : gmap string string) (names : list string) :
  filter (missing env) names = [] <->
  forall name, name ∈ names -> ~ missing env name.
Proof.
  split.
  - intros Hnil name Hin Hmiss.
    assert (Hf : name ∈ filter (missing env) names)
      by (apply list_elem_of_filter; auto).
    rewrite Hnil in Hf. apply elem_of_nil in Hf. exact Hf.
  - intros Hall. destruct (filter (missing env) names) as [|name rest] eqn:Hf;
      [reflexivity |].
    assert (Hin : name ∈ filter (missing env) names)
      by (rewrite Hf; apply list_elem_of_here).
    apply list_elem_of_filter in Hin as [Hmiss Hin]. destruct (Hall name Hin Hmiss).
Qed.

Lemma missing_iff (env : gmap string string) (name : string) :
  missing env name <-> env !! name = None \/ env !! name = Some ""%string.
Proof.
  unfold missing, env_or. destruct (env !! name) as [value|].
  - destruct value as [|c value]; simpl.
    + split; auto.
    + split; [discriminate | intros [H | H]; discriminate].
  - split; auto.
Qed.

Lemma present_iff (env : gmap string string) (name : string) :
  ~ missing env name <->
  exists value, env !! name = Some value /\ value <> ""%string.
Proof.
  rewrite missing_iff. destruct (env !! name) as [value|].
  - split.
    + intros Hn. exists value. split; [reflexivity |]. intros ->. auto.
    + intros (v & [= <-] & Hne) [Hm | Hm]; congruence.
  - split; [intros Hn; destruct Hn; auto | intros (v & Hv & _); discriminate].
Qed.

Lemma present_value (env : gmap string string) (name : string) :
  ~ missing env name -> env !! name = Some (env_or env name "").
Proof.
  intros Hp. apply present_iff in Hp as (value & Hv & Hne).
  unfold env_or. rewrite Hv. rewrite or_string_truthy by exact Hne. reflexivity.
Qed.

Lemma create_ok_iff (env : gmap string string) :
  create env = inr (loadFromEnvironment env) <->
  forall name, name ∈ required_variables -> ~ missing env name.
Proof.
  rewrite <- filter_missing_nil. unfold create, validate.
  rewrite validation_errors_missing.
  destruct (filter (missing env) required_variables); simpl;
    split; congruence.
Qed.

Lemma create_inr (env : gmap string string) (c : SPAPICredentials) :
  create env = inr c -> c = loadFromEnvironment env.
Proof.
  unfold create. destruct (validate (loadFromEnvironment env)); congruence.
Qed.

(** X11: the credentials manager can be constructed exactly when the seven
    required variables are all set to non-empty strings.  The credentials it
    then holds are the values of those variables; the region is AWS_REGION,
    or us-east-1 when that is unset or empty, and the endpoint is
    SP_API_ENDPOINT, or the North America endpoint when that is unset or
    empty. *)
Theorem X11_credentials_required (env : gmap string string) :
  ((exists c, create env = inr c) <->
   forall name, name ∈ required_variables ->
     exists value, env !! name = Some value /\ value <> ""%string) /\
  (forall c, create env = inr c ->
     env !! "AWS_ACCESS_KEY_ID"%string = Some (accessKeyId (aws c)) /\
     env !! "AWS_SECRET_ACCESS_KEY"%string = Some (secretAccessKey (aws c)) /\
     env !! "LWA_CLIENT_ID"%string = Some (TokenManager.clientId (lwa c)) /\
     env !! "LWA_CLIENT_SECRET"%string = Some (TokenManager.clientSecret (lwa c)) /\
     env !! "LWA_REFRESH_TOKEN"%string = Some (TokenManager.refreshToken (lwa c)) /\
     env !! "SELLER_ID"%string = Some (sellerId (config c)) /\
     env !! "MARKETPLACE_ID"%string = Some (marketplaceId (config c)) /\
     (missing env "AWS_REGION" -> region (aws c) = "us-east-1"%string) /\
     (~ missing env "AWS_REGION" ->
      env !! "AWS_REGION"%string = Some (region (aws c))) /\
     (missing env "SP_API_ENDPOINT" ->
      endpoint (config c) = "https://sellingpartnerapi-na.amazon.com"%string) /\
     (~ missing env "SP_API_ENDPOINT" ->
      env !! "SP_API_ENDPOINT"%string = Some (endpoint (config c)))).
Proof.
  split.
  - split.
    + intros [c Hc]. pose proof (create_inr env c Hc) as ->.
      intros name Hin. apply present_iff. revert name Hin.
      apply create_ok_iff, Hc.
    + intros Hall. exists (loadFromEnvironment env). apply create_ok_iff.
      intros name Hin. apply present_iff, Hall, Hin.
  - intros c Hc. pose proof (create_inr env c Hc) as ->.
    pose proof (proj1 (create_ok_iff env) Hc) as Hall.
    assert (Hreq : forall name, name ∈ required_variables ->
                     env !! name = Some (env_or env name ""))
      by (intros name Hin; apply present_value, Hall, Hin).
    assert (Hdefault : forall name fallback,
              (missing env name -> env_or env name fallback = fallback) /\
              (~ missing env name ->
               env !! name = Some (env_or env name fallback))).
    { intros name fallback. split.
      - intros Hm. apply missing_iff in Hm. unfold env_or.
        destruct Hm as [-> | ->]; reflexivity.
      - intros Hp. apply present_iff in Hp as (value & Hv & Hne).
        unfold env_or. rewrite Hv, or_string_truthy by exact Hne. reflexivity. }
    unfold loadFromEnvironment, required_variables in *.
    cbn [aws lwa config accessKeyId secretAccessKey region sellerId
         marketplaceId endpoint TokenManager.clientId
         TokenManager.clientSecret TokenManager.refreshToken].
    repeat (split; [apply Hreq; in_list |]).
    split; [apply Hdefault |]. split; [apply Hdefault |].
    split; apply Hdefault.
Qed.

Lemma X11_credentials_required_witness :
  exists c,
    create env_complete = inr c /\
    accessKeyId (aws c) = "AKIATEST"%string /\
    region (aws c) = "us-east-1"%string.
Proof.
  destruct (proj2 (proj1 (X11_credentials_required env_complete))) as [c Hc].
  - intros name Hin. unfold required_variables in Hin.
    repeat (apply elem_of_cons in Hin as [-> | Hin];
            [eexists; split; [reflexivity | discriminate] |]).
    apply elem_of_nil in Hin. contradiction.
  - exists c. split; [exact Hc |].
    destruct (proj2 (X11_credentials_required env_complete) c Hc)
      as (Hkey & _ & _ & _ & _ & _ & _ & Hregion & _).
    split.
    + assert (Henv : env_complete !! "AWS_ACCESS_KEY_ID"%string =
                     Some "AKIATEST"%string) by reflexivity.
      congruence.
    + apply Hregion. reflexivity.
Defined.

(** X12: when the construction fails, the error is a plain [Error] whose
    message is the heading "Missing required credentials:" followed by one
    line "  - NAME is required" for each required variable that is unset or
    empty, in the order AWS_ACCESS_KEY_ID, AWS_SECRET_ACCESS_KEY,
    LWA_CLIENT_ID, LWA_CLIENT_SECRET, LWA_REFRESH_TOKEN, SELLER_ID,
    MARKETPLACE_ID, and for no other variable; it fails exactly when at least
    one of them is missing. *)
Theorem X12_missing_credentials_reported (env : gmap string string) :
  ((exists e, create env = inl e) <->
   exists name, name ∈ required_variables /\ missing env name) /\
  (forall e, create env = inl e ->
     Errors.name e = Errors.JsError /\
     Errors.message e =
       "Missing required credentials:" +:+ LF +:+
       String.concat LF
         (map (fun name => "  - " +:+ name +:+ " is required")
            (filter (missing env) required_variables))).
Proof.
  assert (Hshape : forall e, create env = inl e ->
            filter (missing env) required_variables <> [] /\
            e = Errors.newError
                  ("Missing required credentials:" +:+ LF +:+
                   String.concat LF
                     (map (fun e => "  - " +:+ e)
                        (map (fun name => name +:+ " is required")
                           (filter (missing env) required_variables))))).
  { intros e. unfold create, validate. rewrite validation_errors_missing.
    destruct (filter (missing env) required_variables) as [|n l];
      simpl; [discriminate |].
    intros [= <-]. split; [discriminate | reflexivity]. }
  split.
  - split.
    + intros [e He]. destruct (Hshape e He) as [Hne _].
      destruct (filter (missing env) required_variables) as [|name l] eqn:Hf;
        [contradiction |].
      exists name.
      assert (Hin : name ∈ filter (missing env) required_variables)
        by (rewrite Hf; apply list_elem_of_here).
      apply list_elem_of_filter in Hin. tauto.
    + intros (name & Hin & Hmiss).
      destruct (create env) as [e | c] eqn:Hc; [eauto |].
      pose proof (create_inr env c Hc) as ->.
      exfalso. exact (proj1 (create_ok_iff env) Hc name Hin Hmiss).
  - intros e He. destruct (Hshape e He) as [_ ->].
    split; [reflexivity |]. cbn [Errors.message Errors.newError].
    rewrite map_map. reflexivity.
Qed.

Lemma X12_missing_credentials_reported_witness :
  exists e,
    create env_two_missing = inl e /\
    Errors.message e =
      "Missing required credentials:" +:+ LF +:+
      "  - AWS_ACCESS_KEY_ID is required" +:+ LF +:+
      "  - SELLER_ID is required" /\
    (exists e', create env_empty_value = inl e' /\
       Errors.message e' =
         "Missing required credentials:" +:+ LF +:+
         "  - LWA_CLIENT_ID is required").
Proof.
  destruct (create env_two_missing) as [e | c] eqn:Hc;
    [| vm_compute in Hc; discriminate].
  destruct (create env_empty_value) as [e' | c'] eqn:Hc';
    [| vm_compute in Hc'; discriminate].
  exists e. split; [reflexivity |].
  split.
  - rewrite (proj2 (proj2 (X12_missing_credentials_reported env_two_missing) e Hc)).
    vm_compute. reflexivity.
  - exists e'. split; [reflexivity |].
    rewrite (proj2 (proj2 (X12_missing_credentials_reported env_empty_value) e' Hc')).
    vm_compute. reflexivity.
Defined.

Lemma shared_token_fresh (now : Z)
  (net : TokenManager.HttpPost -> TokenManager.PostOutcome)
  (env : gmap string string) (instance : Config.SPAPIConfigManager) :
  Config.create env = inr instance ->
  exists result variable call,
    Config.getSharedAccessToken now net env None = (result, variable, [call]).
Proof.
  intros Hc. unfold Config.getSharedAccessToken, Config.getSPAPIConfig.
  rewrite Hc. unfold Config.getAccessToken.
  assert (Hempty : TokenManager.hasCachedToken now (Config.tokenManager instance)
                   = false).
  { unfold Config.create in Hc. destruct (create env); [discriminate |].
    injection Hc as <-. reflexivity. }
  rewrite (getAccessToken_stale now net _ Hempty).
  destruct (refreshAccessToken_one_call net (Config.tokenManager instance))
    as (result & tm & call & -> & _).
  eauto.
Qed.

(** X13: the configuration singleton.  [getSPAPIConfig()] constructs the
    manager on the first successful call and afterwards returns that same
    instance without reading the environment again, until
    [resetSPAPIConfig()]; a construction that throws leaves no instance, so
    the next call constructs from the environment of that moment.  An access
    token cached by the instance is served to every later
    [getSPAPIConfig().getAccessToken()] without an HTTP call while it is
    valid, and is lost by [resetSPAPIConfig()]: the first call after a reset
    goes to the network again. *)
Theorem X13_config_singleton (env env' : gmap string string) (now : Z)
  (net : TokenManager.HttpPost -> TokenManager.PostOutcome) :
  (forall instance,
     Config.create env = inr instance ->
     Config.getSPAPIConfig env None = (inr instance, Some instance) /\
     Config.getSPAPIConfig env' (Some instance) = (inr instance, Some instance)) /\
  (forall e,
     Config.create env = inl e ->
     Config.getSPAPIConfig env None = (inl e, None) /\
     Config.getSPAPIConfig env' (snd (Config.getSPAPIConfig env None)) =
       Config.getSPAPIConfig env' None) /\
  (forall instance,
     TokenManager.hasCachedToken now (Config.tokenManager instance) = true ->
     (exists token,
        Config.getSharedAccessToken now net env' (Some instance) =
          (inr token, Some instance, [])) /\
     (forall instance',
        Config.create env' = inr instance' ->
        exists result variable call,
          Config.getSharedAccessToken now net env'
            (Config.resetSPAPIConfig (Some instance)) =
            (result, variable, [call]))).
Proof.
  split; [| split].
  - intros instance Hc. unfold Config.getSPAPIConfig. rewrite Hc. auto.
  - intros e Hc. unfold Config.getSPAPIConfig at 1 3. rewrite Hc. auto.
  - intros instance Hvalid. split.
    + destruct (getAccessToken_valid now net _ Hvalid) as (token & _ & Hrun).
      exists (TokenManager.accessToken token).
      unfold Config.getSharedAccessToken, Config.getSPAPIConfig,
        Config.getAccessToken.
      rewrite Hrun. destruct instance; reflexivity.
    + intros instance' Hc. apply (shared_token_fresh now net env' instance' Hc).
Qed.

Lemma X13_config_singleton_witness :
  exists instance,
    Config.getSPAPIConfig env_complete None = (inr instance, Some instance) /\
    Config.getSPAPIConfig env_two_missing (Some instance) =
      (inr instance, Some instance) /\
    exists e, fst (Config.getSPAPIConfig env_two_missing None) = inl e.
Proof.
  destruct (Config.create env_complete) as [e | instance] eqn:Hc;
    [vm_compute in Hc; discriminate |].
  destruct (X13_config_singleton env_complete env_two_missing 0 lwa_rejects)
    as (Hfirst & _ & _).
  destruct (Hfirst instance Hc) as [H1 H2].
  exists instance. split; [exact H1 |]. split; [exact H2 |].
  destruct (Config.create env_two_missing) as [e | instance2] eqn:Hc2;
    [| vm_compute in Hc2; discriminate].
  destruct (X13_config_singleton env_two_missing env_complete 0 lwa_rejects)
    as (_ & Hfail & _).
  destruct (Hfail e Hc2) as [Hnone _].
  exists e. rewrite Hnone. reflexivity.
Defined.

End Environment.

(** * Further properties of the client *)
Section RetryMore.
Import Errors Client ClientMore Samples MoreSamples.

Lemma sleeps_app (a b : list Event) : sleeps (a ++ b) = sleeps a ++ sleeps b.
Proof.
  induction a as [|ev a IH]; simpl; [reflexivity |].
  destruct ev; simpl; rewrite IH; reflexivity.
Qed.

(** One attempt: one token fetch, no sleep. *)
Lemma makeRequest_one_attempt (w : World) (n : nat) :
  attempts_started (fst (makeRequest w n)) = 1%nat /\
  sleeps (fst (makeRequest w n)) = [].
Proof. unfold makeRequest. destruct (tokenOutcome w n); split; reflexivity. Qed.

(** The run of [requestWithRetry] from attempt [n] when the next [j] attempts
    fail with errors that are retried and the one after them is final. *)
Lemma requestWithRetry_fuel_run (cfg : RetryConfig) (w : World)
  (errs : nat -> error) (out : Settled AxiosResponse) :
  forall j n fuel,
    (j <= fuel)%nat ->
    (forall i, (n <= i < n + j)%nat ->
       snd (makeRequest w i) = RejectedWith (errs i) /\
       shouldRetry cfg i (errs i) = true) ->
    snd (makeRequest w (n + j)) = out ->
    final_outcome cfg (n + j) out ->
    exists tr,
      requestWithRetry_fuel fuel cfg w n = Some (tr, out) /\
      attempts_started tr = S j /\
      sleeps tr = map (fun i => retrySleep cfg i (errs i)) (seq n j).
Proof.
  induction j as [|j IH]; intros n fuel Hfuel Hretry Hout Hfinal.
  - rewrite Nat.add_0_r in Hout, Hfinal.
    destruct (makeRequest_one_attempt w n) as [Hone Hnone].
    assert (Hstop : requestWithRetry_fuel fuel cfg w n =
                    Some (fst (makeRequest w n), out)).
    { destruct fuel; simpl; destruct (makeRequest w n) as [tr0 out0];
        cbn [fst snd] in *; subst out0;
        destruct out as [r | e |]; try reflexivity;
        cbn in Hfinal; rewrite Hfinal; reflexivity. }
    eexists. split; [exact Hstop |]. split; assumption.
  - destruct fuel as [|fuel]; [lia |].
    destruct (Hretry n ltac:(lia)) as [Hfail Hyes].
    destruct (makeRequest_one_attempt w n) as [Hone Hnone].
    destruct (IH (S n) fuel) as (tr' & Hrec & Hatt & Hsl).
    + lia.
    + intros i Hi. apply Hretry. lia.
    + rewrite <- Hout. f_equal. f_equal. lia.
    + replace (S n + j)%nat with (n + S j)%nat by lia. exact Hfinal.
    + simpl. destruct (makeRequest w n) as [tr0 out0]. cbn [fst snd] in *.
      subst out0. rewrite Hyes, Hrec.
      eexists. split; [reflexivity |].
      unfold attempts_started in *. rewrite count_events_app, sleeps_app.
      cbn [count_events sleeps is_token_fetch map seq].
      rewrite Hone, Hatt, Hnone, Hsl. split; [lia | reflexivity].
Qed.

(** X14: how a call unfolds.  If the slot is granted, the first [k] attempts
    fail with errors that are retried, and attempt [k] ends with a response,
    or with an error that is not retried, then the call ends with that
    outcome after exactly [k + 1] attempts, and the sleeps between the
    attempts are exactly the delays computed for the [k] errors, in order.
    In particular the first outcome that is not retried ends the call at
    once, without any sleep. *)
Theorem X14_retry_until_final (cfg : RetryConfig) (w : World) (key : string)
  (k : nat) (errs : nat -> error) (out : Settled AxiosResponse) :
  acquireOutcome w key = Fulfilled tt ->
  (forall i, (i < k)%nat ->
     snd (makeRequest w i) = RejectedWith (errs i) /\
     shouldRetry cfg i (errs i) = true) ->
  snd (makeRequest w k) = out ->
  final_outcome cfg k out ->
  exists tr,
    request cfg w key = Some (EvAcquire key :: tr, out) /\
    attempts_started tr = S k /\
    sleeps tr = map (fun i => retrySleep cfg i (errs i)) (seq 0 k).
Proof.
  intros Hacq Hretry Hout Hfinal.
  assert (Hfuel : (k <= Z.to_nat (maxRetries cfg - Z.of_nat 0))%nat).
  { destruct k as [|k]; [lia |].
    destruct (Hretry k ltac:(lia)) as [_ Hyes].
    apply shouldRetry_attempt in Hyes. lia. }
  destruct (requestWithRetry_fuel_run cfg w errs out k 0 _ Hfuel)
    as (tr & Hrun & Hatt & Hsl); auto.
  { intros i Hi. apply Hretry. lia. }
  exists tr. unfold request, requestWithRetry. rewrite Hacq, Hrun. auto.
Qed.

Lemma X14_retry_until_final_witness :
  exists tr e,
    request DEFAULT_RETRY_CONFIG world_always_503 "default" =
      Some (EvAcquire "default" :: tr, RejectedWith e) /\
    attempts_started tr = 4%nat /\
    sleeps tr = [1000; 2000; 4000]%Q.
Proof.
  set (e := createErrorFromResponse (mkResponse 503 None ∅)).
  destruct (X14_retry_until_final DEFAULT_RETRY_CONFIG world_always_503
              "default" 3 (fun _ => e) (RejectedWith e))
    as (tr & Hrun & Hatt & Hsl).
  - reflexivity.
  - intros i Hi. split; [reflexivity |].
    destruct i as [|[|[|i]]]; [reflexivity | reflexivity | reflexivity | lia].
  - reflexivity.
  - reflexivity.
  - exists tr, e. split; [exact Hrun |]. split; [exact Hatt |].
    rewrite Hsl. vm_compute. reflexivity.
Defined.

(** An error without status is never retried. *)
Lemma shouldRetry_no_status (cfg : RetryConfig) (n : nat) (e : error) :
  statusCode e = None -> shouldRetry cfg n e = false.
Proof.
  intros Hs. unfold shouldRetry, isRetryableError. rewrite Hs. simpl.
  destruct (instanceof e SPAPIError); simpl; apply andb_false_r.
Qed.

(** An error that is not an [SPAPIError] is never retried. *)
Lemma shouldRetry_foreign (cfg : RetryConfig) (n : nat) (e : error) :
  instanceof e SPAPIError = false -> shouldRetry cfg n e = false.
Proof.
  intros Hi. unfold shouldRetry, isRetryableError. rewrite Hi. simpl.
  apply andb_false_r.
Qed.

(** X15: failures of the transport itself are never retried, whatever the
    retry configuration.  When the HTTP call of the first attempt throws
    without a response (a timeout, a connection failure, any other
    exception), the call fails at once with a generic [SPAPIError] that has
    no status: one attempt, no sleep.  The message is "Request timeout" for
    the codes ECONNABORTED and ETIMEDOUT and
    "Network error: Unable to reach SP-API" for ENOTFOUND and
    ECONNREFUSED. *)
Theorem X15_transport_failure_not_retried (cfg : RetryConfig) (w : World)
  (key : string) (token : string) :
  acquireOutcome w key = Fulfilled tt ->
  tokenOutcome w 0 = Fulfilled token ->
  (forall err,
     transportOutcome w 0 = AxiosThrew err -> axios_response err = None ->
     request cfg w key =
       Some ([EvAcquire key; EvGetAccessToken; EvSignRequest; EvTransport],
             RejectedWith (createErrorFromAxiosError err)) /\
     name (createErrorFromAxiosError err) = SPAPIError /\
     statusCode (createErrorFromAxiosError err) = None /\
     (axios_code err = Some "ECONNABORTED"%string \/
      axios_code err = Some "ETIMEDOUT"%string ->
      message (createErrorFromAxiosError err) = "Request timeout"%string) /\
     (axios_code err = Some "ENOTFOUND"%string \/
      axios_code err = Some "ECONNREFUSED"%string ->
      message (createErrorFromAxiosError err) =
        "Network error: Unable to reach SP-API"%string)) /\
  (forall msg,
     transportOutcome w 0 = OtherThrew msg ->
     exists e,
       request cfg w key =
         Some ([EvAcquire key; EvGetAccessToken; EvSignRequest; EvTransport],
               RejectedWith e) /\
       name e = SPAPIError /\ statusCode e = None).
Proof.
  intros Hacq Htok.
  assert (Hstop : forall e,
            makeRequest w 0 =
              ([EvGetAccessToken; EvSignRequest; EvTransport], RejectedWith e) ->
            statusCode e = None ->
            request cfg w key =
              Some ([EvAcquire key; EvGetAccessToken; EvSignRequest; EvTransport],
                    RejectedWith e)).
  { intros e Hmk Hs. unfold request, requestWithRetry. rewrite Hacq.
    destruct (Z.to_nat (maxRetries cfg - Z.of_nat 0)); simpl;
      rewrite Hmk, (shouldRetry_no_status cfg 0 e Hs); reflexivity. }
  split.
  - intros err Hthrow Hnone.
    assert (Hcls : name (createErrorFromAxiosError err) = SPAPIError /\
                   statusCode (createErrorFromAxiosError err) = None).
    { unfold createErrorFromAxiosError. rewrite Hnone.
      repeat match goal with
        | |- context [bool_decide ?P] => destruct (bool_decide P)
        end; simpl; auto. }
    destruct Hcls as [Hname Hstat].
    split; [| split; [exact Hname | split; [exact Hstat |]]].
    + apply Hstop; [| exact Hstat].
      unfold makeRequest. rewrite Htok, Hthrow. reflexivity.
    + unfold createErrorFromAxiosError. rewrite Hnone. split.
      * intros [-> | ->]; reflexivity.
      * intros [-> | ->]; reflexivity.
  - intros msg Hthrow.
    exists (newSPAPIError
              ("Unexpected error: " +:+ default "Unknown error"%string msg)
              None None None).
    split; [| split; reflexivity].
    apply Hstop; [| reflexivity].
    unfold makeRequest. rewrite Htok, Hthrow. reflexivity.
Qed.

Lemma X15_transport_failure_not_retried_witness :
  exists e,
    request DEFAULT_RETRY_CONFIG world_timeout "default" =
      Some ([EvAcquire "default"; EvGetAccessToken; EvSignRequest; EvTransport],
            RejectedWith e) /\
    message e = "Request timeout"%string.
Proof.
  destruct (X15_transport_failure_not_retried DEFAULT_RETRY_CONFIG world_timeout
              "default" "Atza|token" eq_refl eq_refl) as [Hax _].
  destruct (Hax (mkAxiosError None (Some "ETIMEDOUT"%string)
                   "timeout of 30000ms exceeded") eq_refl eq_refl)
    as (Hrun & _ & _ & Hmsg & _).
  eexists. split; [exact Hrun |]. apply Hmsg. right. reflexivity.
Defined.

(** X16: a failure to get the access token ends the call before anything is
    sent.  An error thrown by [getAccessToken()] that is not an [SPAPIError]
    is passed on as it is: no transport call, no retry, no sleep.  The error
    the token manager throws when its refresh fails is of that kind. *)
Theorem X16_token_failure_propagates (cfg : RetryConfig) (w : World)
  (key : string) (e : error) :
  acquireOutcome w key = Fulfilled tt ->
  tokenOutcome w 0 = RejectedWith e ->
  instanceof e SPAPIError = false ->
  request cfg w key = Some ([EvAcquire key; EvGetAccessToken], RejectedWith e) /\
  (forall now net st err st' calls e',
     (forall call, net call = TokenManager.AxiosFailed err) ->
     TokenManager.getAccessToken now net st = (inl e', st', calls) ->
     instanceof e' SPAPIError = false).
Proof.
  intros Hacq Htok Hforeign. split.
  - unfold request, requestWithRetry. rewrite Hacq.
    destruct (Z.to_nat (maxRetries cfg - Z.of_nat 0)); simpl;
      unfold makeRequest; rewrite Htok;
      rewrite (shouldRetry_foreign cfg 0 e Hforeign); reflexivity.
  - intros now net st err st' calls e' Hnet.
    unfold TokenManager.getAccessToken.
    assert (Hrefresh : TokenManager.refreshAccessToken net st = (inl e', st', calls) ->
                       instanceof e' SPAPIError = false).
    { unfold TokenManager.refreshAccessToken. rewrite Hnet.
      intros [= <- _ _]. reflexivity. }
    destruct (TokenManager.cachedToken st) as [cached|]; [| exact Hrefresh].
    destruct (TokenManager.isTokenValid now cached); [discriminate | exact Hrefresh].
Qed.

(** The status an error made from a response carries: 401 for a 403, the
    status of the response otherwise. *)
Lemma error_status_of_response (response : AxiosResponse) :
  400 <= status response ->
  statusCode (createErrorFromResponse response) =
    Some (if status response =? 403 then 401 else status response) /\
  instanceof (createErrorFromResponse response) SPAPIError = true.
Proof.
  intros Hge. unfold instanceof.
  destruct (Z.eq_dec (status response) 429) as [H9 | H9].
  { destruct (classify_rate_limit response H9) as [-> ->].
    rewrite H9. auto. }
  destruct (Z.eq_dec (status response) 400) as [H0 | H0].
  { destruct (classify_validation response H0) as [-> ->].
    rewrite H0. auto. }
  destruct (Z.eq_dec (status response) 401) as [H1 | H1].
  { destruct (classify_auth response (or_introl H1)) as (-> & -> & _).
    rewrite H1. auto. }
  destruct (Z.eq_dec (status response) 403) as [H3 | H3].
  { destruct (classify_auth response (or_intror H3)) as (-> & -> & _).
    rewrite H3. auto. }
  assert (Hne : (status response =? 403) = false) by (apply Z.eqb_neq; exact H3).
  rewrite Hne.
  destruct (Z_lt_le_dec (status response) 500) as [Hlt | Hle].
  - destruct (classify_client response) as [-> ->]; auto; lia.
  - destruct (classify_server response Hle) as [-> ->]. auto.
Qed.

(** X17: the retry decision looks at the status stored in the error, not at
    the status of the response.  For a response with status at least 400 the
    attempt is retried exactly when fewer than [maxRetries] attempts came
    before and the listed statuses contain the response status, except that
    for a 403 response it is 401 that must be listed: listing 403 has no
    effect, and listing 401 makes 403 responses retried as well. *)
Theorem X17_retry_follows_error_status (cfg : RetryConfig) (n : nat)
  (response : AxiosResponse) :
  400 <= status response ->
  (shouldRetry cfg n (createErrorFromResponse response) = true <->
   Z.of_nat n < maxRetries cfg /\
   (if status response =? 403 then 401 else status response)
     ∈ retryableStatusCodes cfg) /\
  (status response = 403 ->
   (shouldRetry cfg n (createErrorFromResponse response) = true <->
    Z.of_nat n < maxRetries cfg /\ 401 ∈ retryableStatusCodes cfg)).
Proof.
  intros Hge.
  destruct (error_status_of_response response Hge) as [Hs Hi].
  assert (Hmain : shouldRetry cfg n (createErrorFromResponse response) = true <->
                  Z.of_nat n < maxRetries cfg /\
                  (if status response =? 403 then 401 else status response)
                    ∈ retryableStatusCodes cfg).
  { rewrite shouldRetry_iff, Hs, Hi. split.
    - intros (_ & (s & [= <-] & _ & Hin) & Hn). auto.
    - intros [Hn Hin]. split; [reflexivity |]. split; [| exact Hn].
      eexists. split; [reflexivity |]. split; [| exact Hin].
      destruct (status response =? 403); lia. }
  split; [exact Hmain |].
  intros H403. rewrite Hmain, H403. reflexivity.
Qed.

Lemma X17_retry_follows_error_status_witness :
  shouldRetry retry_401 0 (createErrorFromResponse response_403) = true /\
  shouldRetry (mkRetry 3 [403] 1000 2) 0 (createErrorFromResponse response_403)
    = false.
Proof.
  assert (Hge : 400 <= status response_403) by (vm_compute; congruence).
  split.
  - apply (proj2 (X17_retry_follows_error_status retry_401 0 response_403 Hge)
             eq_refl).
    split; [reflexivity | in_list].
  - destruct (shouldRetry (mkRetry 3 [403] 1000 2) 0
                (createErrorFromResponse response_403)) eqn:Hr; [| reflexivity].
    apply (proj2 (X17_retry_follows_error_status (mkRetry 3 [403] 1000 2) 0
                    response_403 Hge) eq_refl) in Hr.
    destruct Hr as [_ Hin]. cbn in Hin.
    apply list_elem_of_singleton in Hin. discriminate.
Defined.

Lemma X16_token_failure_propagates_witness :
  request DEFAULT_RETRY_CONFIG world_token_fails "default" =
    Some ([EvAcquire "default"; EvGetAccessToken], RejectedWith refresh_error).
Proof.
  exact (proj1 (X16_token_failure_propagates DEFAULT_RETRY_CONFIG
                  world_token_fails "default" refresh_error
                  eq_refl eq_refl eq_refl)).
Defined.

(** Settle the conjuncts about a concrete class and a known status. *)
Ltac hierarchy_cases :=
  repeat split; intros;
  try match goal with
    | H : context [decide _] |- _ => vm_compute in H; discriminate H
    end;
  first [reflexivity | lia | exfalso; lia | congruence
        | eexists; split; [reflexivity | lia]].

(** X18: what [instanceof] tells about the error made from a response with
    status at least 400.  It is always an [SPAPIError] (and an [Error]) and
    always carries a status of at least 400.  It is an [SPAPIRequestError]
    exactly for the 4xx statuses other than 429, so a handler for request
    errors also sees the 400, 401 and 403 errors but not the rate-limit one;
    it is an [SPAPIServerError] exactly for 500 and above and a
    [RateLimitError] exactly for 429. *)
Theorem X18_error_hierarchy (response : AxiosResponse) :
  400 <= status response ->
  let e := createErrorFromResponse response in
  instanceof e SPAPIError = true /\
  instanceof e JsError = true /\
  (exists s, statusCode e = Some s /\ 400 <= s) /\
  (instanceof e SPAPIRequestError = true <->
   status response < 500 /\ status response <> 429) /\
  (instanceof e SPAPIServerError = true <-> 500 <= status response) /\
  (instanceof e RateLimitError = true <-> status response = 429) /\
  (instanceof e SPAPIAuthError = true <->
   status response = 401 \/ status response = 403) /\
  (instanceof e SPAPIValidationError = true <-> status response = 400).
Proof.
  intros Hge e. subst e. unfold instanceof.
  destruct (Z.eq_dec (status response) 429) as [H9 | H9].
  { destruct (classify_rate_limit response H9) as [-> ->]. cbn.
    hierarchy_cases. }
  destruct (Z.eq_dec (status response) 400) as [H0 | H0].
  { destruct (classify_validation response H0) as [-> ->]. cbn.
    hierarchy_cases. }
  destruct (Z.eq_dec (status response) 401) as [H1 | H1].
  { destruct (classify_auth response (or_introl H1)) as (-> & -> & _). cbn.
    hierarchy_cases. }
  destruct (Z.eq_dec (status response) 403) as [H3 | H3].
  { destruct (classify_auth response (or_intror H3)) as (-> & -> & _). cbn.
    hierarchy_cases. }
  destruct (Z_lt_le_dec (status response) 500) as [Hlt | Hle].
  - destruct (classify_client response) as [-> ->]; auto; try lia. cbn.
    hierarchy_cases.
  - destruct (classify_server response Hle) as [-> ->]. cbn.
    hierarchy_cases.
Qed.

Lemma X18_error_hierarchy_witness :
  instanceof (createErrorFromResponse response_403) SPAPIRequestError = true /\
  instanceof (createErrorFromResponse response_429_retry_after_60)
    SPAPIRequestError = false.
Proof.
  assert (H3 : 400 <= status response_403) by (vm_compute; congruence).
  assert (H9 : 400 <= status response_429_retry_after_60)
    by (vm_compute; congruence).
  destruct (X18_error_hierarchy response_403 H3) as (_ & _ & _ & Hreq & _).
  destruct (X18_error_hierarchy response_429_retry_after_60 H9)
    as (_ & _ & _ & Hreq9 & _).
  split.
  - apply Hreq. split; [reflexivity | discriminate].
  - destruct (instanceof (createErrorFromResponse response_429_retry_after_60)
                SPAPIRequestError) eqn:Hi; [| reflexivity].
    destruct (proj1 Hreq9 eq_refl) as [_ Hne]. exfalso. apply Hne. reflexivity.
Defined.

(** X19: a client constructed with [retryConfig: {maxRetries: m}] for some
    [m] of 0 or less keeps the other defaults and never retries: whatever the
    collaborators do, a call starts one attempt, sends at most one request
    and never sleeps.  A client constructed without [retryConfig] has the
    default configuration. *)
Theorem X19_retries_turned_off (p : PartialRetryConfig) (m : Z) (w : World)
  (key : string) :
  maxRetries_opt p = Some m -> m <= 0 ->
  (retryableStatusCodes_opt p = None ->
   retryableStatusCodes (mergeRetryConfig (Some p)) = [429; 500; 502; 503; 504]) /\
  (retryDelay_opt p = None -> retryDelay (mergeRetryConfig (Some p)) = 1000%Q) /\
  (backoffMultiplier_opt p = None ->
   backoffMultiplier (mergeRetryConfig (Some p)) = 2%Q) /\
  mergeRetryConfig None = DEFAULT_RETRY_CONFIG /\
  exists tr out,
    request (mergeRetryConfig (Some p)) w key = Some (tr, out) /\
    (attempts tr <= 1)%nat /\ (attempts_started tr <= 1)%nat /\ sleeps tr = [].
Proof.
  intros Hm Hle.
  split; [intros H; simpl; rewrite H; reflexivity |].
  split; [intros H; simpl; rewrite H; reflexivity |].
  split; [intros H; simpl; rewrite H; reflexivity |].
  split; [reflexivity |].
  set (cfg := mergeRetryConfig (Some p)).
  assert (Hmax : maxRetries cfg = m) by (unfold cfg; simpl; rewrite Hm; reflexivity).
  assert (Hno : forall n e, shouldRetry cfg n e = false).
  { intros n e. unfold shouldRetry.
    destruct (Z.ltb_spec (Z.of_nat n) (maxRetries cfg)); [lia | reflexivity]. }
  unfold request. destruct (acquireOutcome w key) as [[] | e |].
  - destruct (requestWithRetry_fuel_run cfg w (fun _ => newError "")
                (snd (makeRequest w 0)) 0 0
                (Z.to_nat (maxRetries cfg - Z.of_nat 0)))
      as (tr & Hrun & Hatt & Hsl); auto; try lia.
    { simpl. destruct (snd (makeRequest w 0)); simpl; auto. }
    unfold requestWithRetry. rewrite Hrun. eexists _, _.
    split; [reflexivity |].
    destruct (requestWithRetry_total cfg w 0) as (tr' & out' & Hrun' & _ & Hbound).
    unfold requestWithRetry in Hrun'. rewrite Hrun in Hrun'.
    injection Hrun' as <- _.
    unfold attempts, attempts_started in *. cbn [count_events is_transport is_token_fetch].
    replace (Z.to_nat (maxRetries cfg - Z.of_nat 0)) with 0%nat in Hbound by lia.
    cbn [sleeps]. split; [lia |]. split; [lia | exact Hsl].
  - eexists _, _. split; [reflexivity |]. cbn. auto.
  - eexists _, _. split; [reflexivity |]. cbn. auto.
Qed.

Lemma X19_retries_turned_off_witness :
  exists tr out,
    request (mergeRetryConfig (Some no_retries)) world_always_503 "default" =
      Some (tr, out) /\
    (attempts tr <= 1)%nat /\ sleeps tr = [].
Proof.
  destruct (X19_retries_turned_off no_retries 0 world_always_503 "default"
              eq_refl (Z.le_refl 0))
    as (_ & _ & _ & _ & tr & out & Hrun & Hatt & _ & Hsl).
  exists tr, out. auto.
Defined.

(** X20: which header wins.  In the headers sent, a header returned by the
    signer overrides everything; otherwise a header supplied by the caller
    overrides the defaults, including the access token header; otherwise
    [x-amz-access-token] is the access token and [Content-Type] is
    [application/json].  The request handed to the signer has the host of
    the URL as its [host] header even when the caller supplied another one,
    the path and query of the URL, the service name [execute-api], and the
    region of the credentials. *)
Theorem X20_header_precedence
  (aws4_sign : SignerRequest -> string * string -> gmap string string)
  (method : string) (url : ParsedURL) (token : string)
  (optionsHeaders : gmap string string) (body : option string)
  (credentials : Credentials.AWSCredentials) :
  let headers := baseHeaders token optionsHeaders in
  let signed := signRequest aws4_sign method url headers body credentials in
  let sent := sentHeaders aws4_sign method url token optionsHeaders body credentials in
  (exists request,
     signed = aws4_sign request
                (Credentials.accessKeyId credentials,
                 Credentials.secretAccessKey credentials) /\
     sr_headers request !! "host"%string = Some (url_host url) /\
     (forall name, name <> "host"%string ->
                   sr_headers request !! name = headers !! name) /\
     sr_host request = url_host url /\
     sr_path request = url_pathname url +:+ url_search url /\
     sr_method request = method /\ sr_body request = body /\
     sr_service request = "execute-api"%string /\
     sr_region request = Credentials.region credentials) /\
  (forall name value, signed !! name = Some value -> sent !! name = Some value) /\
  (forall name, signed !! name = None -> sent !! name = headers !! name) /\
  (forall name value,
     optionsHeaders !! name = Some value -> headers !! name = Some value) /\
  (optionsHeaders !! "x-amz-access-token"%string = None ->
   headers !! "x-amz-access-token"%string = Some token) /\
  (optionsHeaders !! "Content-Type"%string = None ->
   headers !! "Content-Type"%string = Some "application/json"%string) /\
  (forall name,
     optionsHeaders !! name = None -> name <> "x-amz-access-token"%string ->
     name <> "Content-Type"%string -> headers !! name = None).
Proof.
  intros headers signed sent. subst headers signed sent.
  unfold sentHeaders, signRequest, baseHeaders.
  split.
  { eexists. split; [reflexivity |]. cbn.
    split; [apply lookup_insert_eq |].
    split; [intros name Hne; apply lookup_insert_ne; congruence |].
    repeat split. }
  split; [intros name value Hs; apply lookup_union_Some_l; exact Hs |].
  split; [intros name Hs; apply lookup_union_r; exact Hs |].
  split; [intros name value Ho; apply lookup_union_Some_l; exact Ho |].
  split.
  { intros Ho. rewrite lookup_union_r by exact Ho.
    rewrite lookup_insert_ne by discriminate. apply lookup_insert_eq. }
  split.
  { intros Ho. rewrite lookup_union_r by exact Ho. apply lookup_insert_eq. }
  intros name Ho Ht Hc. rewrite lookup_union_r by exact Ho.
  rewrite !lookup_insert_ne by congruence. apply lookup_empty.
Qed.

Lemma X20_header_precedence_witness :
  sentHeaders toy_signer "GET" orders_url "Atza|token"
    {[ "host"%string := "evil.example.com"%string ]} None aws_credentials
    !! "host"%string = Some "api.example.com"%string.
Proof.
  destruct (X20_header_precedence toy_signer "GET" orders_url "Atza|token"
              {[ "host"%string := "evil.example.com"%string ]} None
              aws_credentials) as (_ & Hsigned & _).
  apply Hsigned. vm_compute. reflexivity.
Defined.

End RetryMore.
